(** * mj3gc: per-key admission control, accounting store and credential
    extraction

    A shallow embedding of the Go package [internal/mj3gc] (the record
    store with its [BeginRequest]/[EndRequest] admission protocol, its
    persistence and its portal credential extractor) and of
    [internal/access/mj3gc_access] (the access provider with its own
    extractor and the trust check on the extraction source).

    Conventions of the embedding:
    - Go [string] is a byte string, [String.string] here.
    - Go [int64] and [int] (64-bit targets) are [Z]; every arithmetic
      operation of the source is followed by its two's-complement
      wrap-around [wrap64].
    - [time.Time] is [Z] (an instant), the zero [Z] being Go's zero time.
    - A method with receiver [s *Store] is a function on the pointee that
      returns the updated pointee; the [if s == nil] guard at the top of
      every method is the only part that is about the pointer itself.
    - The store's [sync.RWMutex] makes every method body one atomic
      transition; a method is therefore one step on [Store].
    - [time.Now()], the random text of [newID] and the outcome of each
      operating-system call are inputs of the operation that uses them. *)

From stdpp Require Import base option list strings gmap.
From Stdlib Require Import ZArith Lia Ascii.

Local Open Scope Z_scope.

(** ** Machine integers *)

Definition int64_min : Z := - 2 ^ 63.
Definition int64_max : Z := 2 ^ 63 - 1.

(** Two's-complement reduction of an integer result to 64 bits. *)
Definition wrap64 (z : Z) : Z := (z + 2 ^ 63) `mod` 2 ^ 64 - 2 ^ 63.

Definition in_int64 (z : Z) : Prop := int64_min ≤ z ≤ int64_max.

(** ** Time *)

Definition Time : Type := Z.
Definition Time_zero : Time := 0.
Definition IsZero (t : Time) : bool := bool_decide (t = Time_zero).

(** ** The [strings] package, on byte strings

    [TrimSpace] removes the six ASCII white-space bytes Go's fast path
    removes; [ToLower] and [EqualFold] fold the ASCII letters. *)

Definition isSpace (c : ascii) : bool := Ascii.is_space c.

Fixpoint trimLeft (s : string) : string :=
  match s with
  | EmptyString => EmptyString
  | String c r => if isSpace c then trimLeft r else s
  end.

Fixpoint trimRight (s : string) : string :=
  match s with
  | EmptyString => EmptyString
  | String c r =>
      match trimRight r with
      | EmptyString => if isSpace c then EmptyString else String c EmptyString
      | r' => String c r'
      end
  end.

Definition TrimSpace (s : string) : string := trimRight (trimLeft s).

Definition lowerByte (c : ascii) : ascii :=
  let n := nat_of_ascii c in
  if bool_decide (65 ≤ n ≤ 90)%nat then ascii_of_nat (n + 32) else c.

Definition upperByte (c : ascii) : ascii :=
  let n := nat_of_ascii c in
  if bool_decide (97 ≤ n ≤ 122)%nat then ascii_of_nat (n - 32) else c.

Fixpoint ToLower (s : string) : string :=
  match s with
  | EmptyString => EmptyString
  | String c r => String (lowerByte c) (ToLower r)
  end.

Definition EqualFold (s t : string) : bool :=
  bool_decide (ToLower s = ToLower t).

Fixpoint HasPrefix (s pre : string) : bool :=
  match pre with
  | EmptyString => true
  | String a pre' =>
      match s with
      | EmptyString => false
      | String b s' => bool_decide (b = a) && HasPrefix s' pre'
      end
  end.

(** [cut s] splits [s] around its first space, if it has one. *)
Fixpoint cut (s : string) : option (string * string) :=
  match s with
  | EmptyString => None
  | String c r =>
      if bool_decide (c = " "%char) then Some (EmptyString, r)
      else match cut r with
           | Some (a, b) => Some (String c a, b)
           | None => None
           end
  end.

(** [strings.SplitN(s, " ", 2)]. *)
Definition SplitN2 (s : string) : list string :=
  match cut s with
  | Some (a, b) => [a; b]
  | None => [s]
  end.

(** ** [net/http] and [net/url] carriers *)

(** [textproto.CanonicalMIMEHeaderKey] on the header names the program
    passes (all of them valid tokens): the first letter and every letter
    after a hyphen in upper case, the others in lower case. *)
Fixpoint canonical (upper : bool) (s : string) : string :=
  match s with
  | EmptyString => EmptyString
  | String c r =>
      String (if upper then upperByte c else lowerByte c)
             (canonical (bool_decide (c = "-"%char)) r)
  end.

Definition CanonicalMIMEHeaderKey (s : string) : string := canonical true s.

(** [http.Header] and [url.Values] are both [map[string][]string]. *)
Abbreviation Values := (gmap string (list string)).

Definition Values_Get (v : Values) (key : string) : string :=
  match v !! key with
  | Some (x :: _) => x
  | _ => EmptyString
  end.

Definition Header_Get (h : Values) (key : string) : string :=
  Values_Get h (CanonicalMIMEHeaderKey key).

(** The part of [*http.Request] the extractors read: the header map and
    the request URL (a pointer, hence the option) with its parsed query. *)
Record Request : Type := mkRequest {
  Header : Values;
  URL : option Values
}.

(** ** Errors *)

(** The package's sentinel errors, the [fmt.Errorf] validation errors, and
    what the operating system and the JSON decoder can return. *)
Inductive error : Type :=
  | ErrKeyNotFound
  | ErrKeyDisabled
  | ErrQuotaExceeded
  | ErrConcurrencyExceeded
  | ErrUserNotFound
  | ErrInvalidCredentials
  | ErrDuplicateUsername
  | ErrDuplicateAPIKey
  | ErrInvalidConfiguration
  | Errorf (msg : string)
  | ErrNotExist
  | ErrIO (msg : string)
  | ErrDecode (msg : string).

Global Instance error_eq_dec : EqDecision error.
Proof. solve_decision. Defined.

(** A Go result pair [(T, error)]: the value when the error is nil, the
    error (next to a zero value) otherwise. *)
Inductive result (A : Type) : Type :=
  | Ok (a : A)
  | Err (e : error).
Arguments Ok {A} a.
Arguments Err {A} e.

Definition os_IsNotExist (e : error) : bool := bool_decide (e = ErrNotExist).

(** ** Records *)

Definition roleOwner : string := "owner".
Definition roleUser : string := "user".

Module User.
Record t : Type := mk {
  ID : string;
  Username : string;
  PasswordHash : string;
  Role : string;
  Disabled : bool;
  CreatedAt : Time
}.

Definition with_ID (v : string) (u : t) : t :=
  mk v (Username u) (PasswordHash u) (Role u) (Disabled u) (CreatedAt u).
Definition with_Role (v : string) (u : t) : t :=
  mk (ID u) (Username u) (PasswordHash u) v (Disabled u) (CreatedAt u).
Definition with_CreatedAt (v : Time) (u : t) : t :=
  mk (ID u) (Username u) (PasswordHash u) (Role u) (Disabled u) v.
Definition with_PasswordHash (v : string) (u : t) : t :=
  mk (ID u) (Username u) v (Role u) (Disabled u) (CreatedAt u).

Global Instance eq_dec : EqDecision t.
Proof. solve_decision. Defined.
End User.

Module APIKey.
Record t : Type := mk {
  ID : string;
  Key : string;
  Label : string;
  UserID : string;
  Enabled : bool;
  TotalLimit : Z;
  UsedCount : Z;
  ConcurrencyLimit : Z;
  CompatibilityMode : bool;
  CreatedAt : Time
}.

Definition with_ID (v : string) (k : t) : t :=
  mk v (Key k) (Label k) (UserID k) (Enabled k) (TotalLimit k)
     (UsedCount k) (ConcurrencyLimit k) (CompatibilityMode k) (CreatedAt k).
Definition with_UsedCount (v : Z) (k : t) : t :=
  mk (ID k) (Key k) (Label k) (UserID k) (Enabled k) (TotalLimit k)
     v (ConcurrencyLimit k) (CompatibilityMode k) (CreatedAt k).
Definition with_CreatedAt (v : Time) (k : t) : t :=
  mk (ID k) (Key k) (Label k) (UserID k) (Enabled k) (TotalLimit k)
     (UsedCount k) (ConcurrencyLimit k) (CompatibilityMode k) v.

Global Instance eq_dec : EqDecision t.
Proof. solve_decision. Defined.
End APIKey.

(** The Record Set. *)
Record Data : Type := mkData {
  Version : Z;
  UpdatedAt : Time;
  Users : list User.t;
  APIKeys : list APIKey.t
}.

Global Instance Data_eq_dec : EqDecision Data.
Proof. solve_decision. Defined.

(** The zero value [Data{}]. *)
Definition Data_zero : Data := mkData 0 Time_zero [] [].

(** The in-flight counter, [map[string]int]. *)
Abbreviation Inflight := (gmap string Z).

(** Reading a Go map at an absent key gives the zero value. *)
Definition inflight_get (m : Inflight) (id : string) : Z :=
  default 0 (m !! id).

Record Store : Type := mkStore {
  path : string;
  data : Data;
  inflight : Inflight
}.

Definition with_data (d : Data) (s : Store) : Store :=
  mkStore (path s) d (inflight s).
Definition with_APIKeys (ks : list APIKey.t) (s : Store) : Store :=
  with_data (mkData (Version (data s)) (UpdatedAt (data s))
                    (Users (data s)) ks) s.
Definition with_Users (us : list User.t) (s : Store) : Store :=
  with_data (mkData (Version (data s)) (UpdatedAt (data s))
                    us (APIKeys (data s))) s.

(** ** Store construction and configuration *)

Definition NewStore : Store := mkStore "" Data_zero ∅.

Definition SetPath (p : string) (s : Store) : Store :=
  mkStore (TrimSpace p) (data s) (inflight s).

Definition Path (s : Store) : string := path s.

(** [fmt.Sprintf("%s_%s", prefix, base64(random bytes))], the encoded
    random bytes being the input [rnd]. *)
Definition newID (prefix rnd : string) : string := prefix +:+ "_" +:+ rnd.

(** ** Snapshots *)

(** [snapshotLocked]: a struct literal with three of the four fields, the
    two sequences copied element by element into fresh slices. The field
    [UpdatedAt] is not named in the literal and so is the zero time. *)
Definition snapshotLocked (s : Store) : Data :=
  {| Version := Version (data s);
     UpdatedAt := Time_zero;
     Users := [] ++ Users (data s);
     APIKeys := [] ++ APIKeys (data s) |}.

Definition Snapshot (s : Store) : Data := snapshotLocked s.

(** ** Users *)

Fixpoint replaceUser (us : list User.t) (user : User.t) : option (list User.t) :=
  match us with
  | [] => None
  | u :: rest =>
      if bool_decide (User.ID u = User.ID user) then Some (user :: rest)
      else match replaceUser rest user with
           | Some rest' => Some (u :: rest')
           | None => None
           end
  end.

Definition UpsertUser (user : User.t) (now : Time) (rnd : string) (s : Store)
  : result User.t * Store :=
  if bool_decide (TrimSpace (User.Username user) = "") then
    (Err (Errorf "username required"), s)
  else
    let user := if bool_decide (User.Role user = "")
                then User.with_Role roleUser user else user in
    if bool_decide (User.Role user ≠ roleOwner)
       && bool_decide (User.Role user ≠ roleUser) then
      (Err (Errorf "invalid role"), s)
    else
      let user := if IsZero (User.CreatedAt user)
                  then User.with_CreatedAt now user else user in
      if existsb (λ existing,
                    EqualFold (User.Username existing) (User.Username user)
                    && bool_decide (User.ID existing ≠ User.ID user))
                 (Users (data s)) then
        (Err ErrDuplicateUsername, s)
      else if bool_decide (User.ID user = "") then
        let user := User.with_ID (newID "usr" rnd) user in
        (Ok user, with_Users (Users (data s) ++ [user]) s)
      else
        match replaceUser (Users (data s)) user with
        | Some us => (Ok user, with_Users us s)
        | None => (Ok user, with_Users (Users (data s) ++ [user]) s)
        end.

Definition DeleteUser (id : string) (s : Store) : option error * Store :=
  if bool_decide (TrimSpace id = "") then (Some ErrUserNotFound, s)
  else
    let out := filter (λ u, User.ID u ≠ id) (Users (data s)) in
    if existsb (λ u, bool_decide (User.ID u = id)) (Users (data s))
    then (None, with_Users out s)
    else (Some ErrUserNotFound, s).

Definition FindUserByID (id : string) (s : Store) : option User.t :=
  List.find (λ u, bool_decide (User.ID u = id)) (Users (data s)).


(** ** API keys *)

Fixpoint replaceKey (ks : list APIKey.t) (key : APIKey.t)
  : option (list APIKey.t) :=
  match ks with
  | [] => None
  | k :: rest =>
      if bool_decide (APIKey.ID k = APIKey.ID key) then Some (key :: rest)
      else match replaceKey rest key with
           | Some rest' => Some (k :: rest')
           | None => None
           end
  end.

Definition UpsertAPIKey (key : APIKey.t) (now : Time) (rnd : string) (s : Store)
  : result APIKey.t * Store :=
  if bool_decide (TrimSpace (APIKey.Key key) = "") then
    (Err (Errorf "api key required"), s)
  else
    let key := if IsZero (APIKey.CreatedAt key)
               then APIKey.with_CreatedAt now key else key in
    if existsb (λ existing,
                  bool_decide (APIKey.Key existing = APIKey.Key key)
                  && bool_decide (APIKey.ID existing ≠ APIKey.ID key))
               (APIKeys (data s)) then
      (Err ErrDuplicateAPIKey, s)
    else if bool_decide (APIKey.ID key = "") then
      let key := APIKey.with_ID (newID "key" rnd) key in
      (Ok key, with_APIKeys (APIKeys (data s) ++ [key]) s)
    else
      match replaceKey (APIKeys (data s)) key with
      | Some ks => (Ok key, with_APIKeys ks s)
      | None => (Ok key, with_APIKeys (APIKeys (data s) ++ [key]) s)
      end.

Definition DeleteAPIKey (id : string) (s : Store) : option error * Store :=
  if bool_decide (TrimSpace id = "") then (Some ErrKeyNotFound, s)
  else
    let out := filter (λ k, APIKey.ID k ≠ id) (APIKeys (data s)) in
    if existsb (λ k, bool_decide (APIKey.ID k = id)) (APIKeys (data s))
    then (None, with_APIKeys out s)
    else (Some ErrKeyNotFound, s).

Definition FindAPIKey (value : string) (s : Store) : option APIKey.t :=
  let value := TrimSpace value in
  if bool_decide (value = "") then None
  else List.find (λ k, bool_decide (APIKey.Key k = value)) (APIKeys (data s)).

Definition FindAPIKeyByID (id : string) (s : Store) : option APIKey.t :=
  let id := TrimSpace id in
  if bool_decide (id = "") then None
  else List.find (λ k, bool_decide (APIKey.ID k = id)) (APIKeys (data s)).

Definition ListAPIKeys (s : Store) : list APIKey.t := APIKeys (data s).
Definition ListUsers (s : Store) : list User.t := Users (data s).

(** ** Admission: [BeginRequest] and [EndRequest] *)

(** The [for i := range s.data.APIKeys] loop of [BeginRequest]: keys whose
    credential differs are skipped, the first one that matches decides. *)
Fixpoint BeginRequest_loop (ks : list APIKey.t) (value : string) (fl : Inflight)
  : result APIKey.t * Inflight :=
  match ks with
  | [] => (Err ErrKeyNotFound, fl)
  | key :: rest =>
      if bool_decide (APIKey.Key key ≠ value) then
        BeginRequest_loop rest value fl
      else if negb (APIKey.Enabled key) then (Err ErrKeyDisabled, fl)
      else if bool_decide (APIKey.TotalLimit key > 0)
              && bool_decide (APIKey.UsedCount key >= APIKey.TotalLimit key)
      then (Err ErrQuotaExceeded, fl)
      else if bool_decide (APIKey.ConcurrencyLimit key > 0) then
        let current := inflight_get fl (APIKey.ID key) in
        if bool_decide (current >= APIKey.ConcurrencyLimit key) then
          (Err ErrConcurrencyExceeded, fl)
        else (Ok key, <[APIKey.ID key := wrap64 (current + 1)]> fl)
      else (Ok key, fl)
  end.

Definition BeginRequest (value : string) (s : Store) : result APIKey.t * Store :=
  let value := TrimSpace value in
  if bool_decide (value = "") then (Err ErrKeyNotFound, s)
  else
    let '(r, fl) := BeginRequest_loop (APIKeys (data s)) value (inflight s) in
    (r, mkStore (path s) (data s) fl).

(** The loop of [EndRequest]; [key] is a pointer into the slice, so the
    increment of [UsedCount] is an update of the slice element. *)
Fixpoint EndRequest_loop (ks : list APIKey.t) (value : string) (count : bool)
    (fl : Inflight) : list APIKey.t * Inflight :=
  match ks with
  | [] => ([], fl)
  | key :: rest =>
      if bool_decide (APIKey.Key key ≠ value) then
        let '(rest', fl') := EndRequest_loop rest value count fl in
        (key :: rest', fl')
      else
        let fl' :=
          if bool_decide (APIKey.ConcurrencyLimit key > 0) then
            let current := inflight_get fl (APIKey.ID key) in
            if bool_decide (current > 0)
            then <[APIKey.ID key := wrap64 (current - 1)]> fl
            else fl
          else fl in
        let key' :=
          if count
          then APIKey.with_UsedCount (wrap64 (APIKey.UsedCount key + 1)) key
          else key in
        (key' :: rest, fl')
  end.

(** [EndRequest] has no result: it cannot report an error. *)
Definition EndRequest (value : string) (count : bool) (s : Store) : Store :=
  let value := TrimSpace value in
  if bool_decide (value = "") then s
  else
    let '(ks, fl) := EndRequest_loop (APIKeys (data s)) value count (inflight s) in
    mkStore (path s) (mkData (Version (data s)) (UpdatedAt (data s))
                             (Users (data s)) ks) fl.

(** ** Persistence *)

(** The file system: the regular files by path, with their content. *)
Abbreviation FS := (gmap string string).

(** What the operating system answers to the calls of one [Save]: the
    name [os.CreateTemp] gives the temporary file, and for each call the
    error it returns, if any. *)
Record SaveIO : Type := mkSaveIO {
  tmp_name : string;
  mkdir_err : option error;
  create_err : option error;
  write_err : option error;
  close_err : option error;
  rename_err : option error
}.

(** [os.ReadFile]: the content, [ErrNotExist] for an absent file, or the
    error the operating system raises instead ([fault]). *)
Definition os_ReadFile (fs : FS) (fault : option error) (p : string)
  : result string :=
  match fault with
  | Some e => Err e
  | None => match fs !! p with
            | Some raw => Ok raw
            | None => Err ErrNotExist
            end
  end.

Section Persistence.
(** [encoding/json], specialised to [Data] with its field tags. A field
    absent from the document is left at its zero value by the decoder. *)
Variable json_MarshalIndent : Data → result string.
Variable json_Unmarshal : string → result Data.

Definition Load (fault : option error) (now : Time) (fs : FS) (s : Store)
  : option error * Store :=
  let p := Path s in
  if bool_decide (p = "") then (Some ErrInvalidConfiguration, s)
  else
    match os_ReadFile fs fault p with
    | Err err =>
        if os_IsNotExist err
        then (None, with_data (mkData 1 now [] []) s)
        else (Some err, s)
    | Ok raw =>
        match json_Unmarshal raw with
        | Err err => (Some err, s)
        | Ok d =>
            let d := if bool_decide (Version d = 0)
                     then mkData 1 (UpdatedAt d) (Users d) (APIKeys d)
                     else d in
            (None, with_data d s)
        end
    end.

(** [Save]; the deferred function (close, then remove the temporary
    file, both errors dropped) runs on every return after
    [os.CreateTemp] succeeded. *)
Definition Save (io : SaveIO) (now : Time) (fs : FS) (s : Store)
  : option error * FS :=
  let p := Path s in
  if bool_decide (p = "") then (Some ErrInvalidConfiguration, fs)
  else
    let d := snapshotLocked s in
    let d := mkData (Version d) now (Users d) (APIKeys d) in
    match json_MarshalIndent d with
    | Err err => (Some err, fs)
    | Ok payload =>
        match mkdir_err io with
        | Some err => (Some err, fs)
        | None =>
            match create_err io with
            | Some err => (Some err, fs)
            | None =>
                let tmp := tmp_name io in
                let fs1 := <[tmp := ""]> fs in
                let deferred (f : FS) : FS := delete tmp f in
                match write_err io with
                | Some err => (Some err, deferred fs1)
                | None =>
                    let fs2 := <[tmp := payload]> fs1 in
                    match close_err io with
                    | Some err => (Some err, deferred fs2)
                    | None =>
                        match rename_err io with
                        | Some err => (Some err, deferred fs2)
                        | None =>
                            (None,
                             deferred (<[p := payload]> (delete tmp fs2)))
                        end
                    end
                end
            end
        end
    end.
End Persistence.

(** ** Credential extraction *)

(** [extractKeyFromRequest], the portal's extractor. *)
Definition extractKeyFromRequest (r : Request) : string * string :=
  let ah := Header_Get (Header r) "Authorization" in
  let authorization : option (string * string) :=
    if bool_decide (ah ≠ "") then
      let parts := SplitN2 ah in
      match parts with
      | [p0; p1] =>
          if EqualFold p0 "bearer" then Some (TrimSpace p1, "authorization")
          else if negb (HasPrefix (ToLower ah) "basic ")
          then Some (TrimSpace ah, "authorization")
          else None
      | _ =>
          if negb (HasPrefix (ToLower ah) "basic ")
          then Some (TrimSpace ah, "authorization")
          else None
      end
    else None in
  match authorization with
  | Some res => res
  | None =>
      let v := TrimSpace (Header_Get (Header r) "X-Api-Key") in
      if bool_decide (v ≠ "") then (v, "x-api-key") else
      let v := TrimSpace (Header_Get (Header r) "X-Goog-Api-Key") in
      if bool_decide (v ≠ "") then (v, "x-goog-api-key") else
      let v := TrimSpace (Header_Get (Header r) "X-API-Key") in
      if bool_decide (v ≠ "") then (v, "x-api-key") else
      match URL r with
      | Some q =>
          let v := TrimSpace (Values_Get q "key") in
          if bool_decide (v ≠ "") then (v, "query-key") else
          let v := TrimSpace (Values_Get q "auth_token") in
          if bool_decide (v ≠ "") then (v, "query-auth-token") else
          ("", "")
      | None => ("", "")
      end
  end.

(** [extractAPIKey], the access provider's extractor: any non-empty
    [Authorization] header returns from the first branch. *)
Definition extractAPIKey (r : Request) : string * string :=
  let authHeader := Header_Get (Header r) "Authorization" in
  if bool_decide (authHeader ≠ "") then
    match SplitN2 authHeader with
    | [p0; p1] =>
        if EqualFold p0 "bearer" then (TrimSpace p1, "authorization")
        else (TrimSpace authHeader, "authorization")
    | _ => (TrimSpace authHeader, "authorization")
    end
  else
    let v := TrimSpace (Header_Get (Header r) "X-Api-Key") in
    if bool_decide (v ≠ "") then (v, "x-api-key") else
    let v := TrimSpace (Header_Get (Header r) "X-Goog-Api-Key") in
    if bool_decide (v ≠ "") then (v, "x-goog-api-key") else
    let v := TrimSpace (Header_Get (Header r) "X-API-Key") in
    if bool_decide (v ≠ "") then (v, "x-api-key") else
    match URL r with
    | Some q =>
        let v := TrimSpace (Values_Get q "key") in
        if bool_decide (v ≠ "") then (v, "query-key") else
        let v := TrimSpace (Values_Get q "auth_token") in
        if bool_decide (v ≠ "") then (v, "query-auth-token") else
        ("", "")
    | None => ("", "")
    end.

(** [authenticateAPIKey] of the portal middleware. *)
Definition authenticateAPIKey (s : Store) (r : Request) : option APIKey.t :=
  let '(value, _) := extractKeyFromRequest r in
  if bool_decide (value = "") then None
  else match FindAPIKey value s with
       | Some key => if negb (APIKey.Enabled key) then None else Some key
       | None => None
       end.

(** ** The access provider *)

Definition providerType : string := "mj3gc-api-key".

(** [sdkaccess]'s sentinel errors the provider returns. *)
Inductive access_error : Type :=
  | ErrNotHandled
  | ErrNoCredentials
  | ErrInvalidCredential.

Record AccessResult : Type := mkAccessResult {
  Provider : string;
  Principal : string;
  Metadata : gmap string string
}.

Definition isStrictSource (source : string) : bool :=
  if bool_decide (source = "authorization") then true
  else if bool_decide (source = "x-api-key") then true
  else false.

Definition Identifier (name : string) : string :=
  if bool_decide (name = "") then providerType else name.

(** The trust policy: the condition of the third check of
    [Authenticate], [!apiKey.CompatibilityMode && !isStrictSource(source)],
    under which the credential is refused for where it came from. *)
Definition trustRejects (apiKey : APIKey.t) (source : string) : bool :=
  negb (APIKey.CompatibilityMode apiKey) && negb (isStrictSource source).

(** [provider.Authenticate] for a non-nil provider named [name] and a
    non-nil request, [s] being the state of the default store. *)
Definition Authenticate (name : string) (s : Store) (r : Request)
  : AccessResult + access_error :=
  let '(value, source) := extractAPIKey r in
  if bool_decide (value = "") then inr ErrNoCredentials
  else
    match FindAPIKey value s with
    | None => inr ErrInvalidCredential
    | Some apiKey =>
        if negb (APIKey.Enabled apiKey) then inr ErrInvalidCredential
        else if trustRejects apiKey source then inr ErrInvalidCredential
        else
          let metadata : gmap string string := ∅ in
          let metadata := if bool_decide (APIKey.UserID apiKey ≠ "")
                          then <["user_id" := APIKey.UserID apiKey]> metadata
                          else metadata in
          let metadata := if bool_decide (APIKey.Label apiKey ≠ "")
                          then <["label" := APIKey.Label apiKey]> metadata
                          else metadata in
          inl (mkAccessResult (Identifier name) (APIKey.Key apiKey) metadata)
    end.

(** The two effects of [EndRequest] on the key its loop stops at: the
    slot it gives back and the usage it commits. *)
Definition release (key : APIKey.t) (fl : Inflight) : Inflight :=
  if bool_decide (APIKey.ConcurrencyLimit key > 0) then
    if bool_decide (inflight_get fl (APIKey.ID key) > 0)
    then <[APIKey.ID key := wrap64 (inflight_get fl (APIKey.ID key) - 1)]> fl
    else fl
  else fl.

Definition charge (count : bool) (key : APIKey.t) : APIKey.t :=
  if count then APIKey.with_UsedCount (wrap64 (APIKey.UsedCount key + 1)) key
  else key.

(** ** The store as a state machine

    The methods that change the store, as operations; [Save], [Snapshot]
    and the lookups read the store and leave it as it is. A [Load] carries
    the decoder and the file system it reads. *)
Inductive op : Type :=
  | OpBeginRequest (value : string)
  | OpEndRequest (value : string) (count : bool)
  | OpUpsertAPIKey (key : APIKey.t) (now : Time) (rnd : string)
  | OpDeleteAPIKey (id : string)
  | OpUpsertUser (user : User.t) (now : Time) (rnd : string)
  | OpDeleteUser (id : string)
  | OpSetPath (p : string)
  | OpLoad (unmarshal : string → result Data) (fault : option error)
           (now : Time) (fs : FS).

(** What a caller observes of the admission protocol: a [BeginRequest]
    that returned the key with identifier [id], an [EndRequest] whose
    credential resolves to the key with identifier [id]. *)
Inductive event : Type :=
  | Begun (id : string)
  | Ended (id : string).

Definition step (o : op) (s : Store) : Store * list event :=
  match o with
  | OpBeginRequest value =>
      match BeginRequest value s with
      | (Ok key, s') => (s', [Begun (APIKey.ID key)])
      | (Err _, s') => (s', [])
      end
  | OpEndRequest value count =>
      (EndRequest value count s,
       match FindAPIKey value s with
       | Some key => [Ended (APIKey.ID key)]
       | None => []
       end)
  | OpUpsertAPIKey key now rnd => ((UpsertAPIKey key now rnd s).2, [])
  | OpDeleteAPIKey id => ((DeleteAPIKey id s).2, [])
  | OpUpsertUser user now rnd => ((UpsertUser user now rnd s).2, [])
  | OpDeleteUser id => ((DeleteUser id s).2, [])
  | OpSetPath p => (SetPath p s, [])
  | OpLoad unmarshal fault now fs => ((Load unmarshal fault now fs s).2, [])
  end.

Fixpoint run (ops : list op) (s : Store) : Store * list event :=
  match ops with
  | [] => (s, [])
  | o :: rest =>
      let '(s1, e1) := step o s in
      let '(s2, e2) := run rest s1 in
      (s2, e1 ++ e2)
  end.

(** The operations that leave the configuration of the API keys alone:
    all but [UpsertAPIKey] and [Load]. *)
Definition admission_op (o : op) : bool :=
  match o with
  | OpUpsertAPIKey _ _ _ | OpLoad _ _ _ _ => false
  | _ => true
  end.





(** The keys of [ks'] come from keys of [ks] with the same identifier and
    the same ceiling. *)
Definition same_ceilings (ks ks' : list APIKey.t) : Prop :=
  ∀ k, k ∈ ks' → ∃ k0, k0 ∈ ks ∧ APIKey.ID k0 = APIKey.ID k ∧
                       APIKey.ConcurrencyLimit k0 = APIKey.ConcurrencyLimit k.

(** A run in which every key keeps its ceiling: each operation leaves
    only keys that have the identifier and the ceiling of a key that was
    there before it. *)
Fixpoint keeps_ceilings (ops : list op) (s : Store) : Prop :=
  match ops with
  | [] => True
  | o :: rest =>
      same_ceilings (APIKeys (data s)) (APIKeys (data (step o s).1)) ∧
      keeps_ceilings rest (step o s).1
  end.

(** The typing of the integer fields and of the counter's values: what
    Go's [int64] and [int] can hold. *)
Definition APIKey_typed (k : APIKey.t) : Prop :=
  in_int64 (APIKey.TotalLimit k) ∧ in_int64 (APIKey.UsedCount k) ∧
  in_int64 (APIKey.ConcurrencyLimit k).

Definition Store_typed (s : Store) : Prop :=
  in_int64 (Version (data s)) ∧
  (∀ k, k ∈ APIKeys (data s) → APIKey_typed k) ∧
  (∀ id, in_int64 (inflight_get (inflight s) id)).

(** ** Concrete stores

    The key of the specification's scenario (lifetime limit 3, two requests
    used, ceiling 1), and a key whose usage counter holds the largest
    [int64]. *)
Definition scenario_key : APIKey.t :=
  APIKey.mk "key_1" "mj3gc-secret" "demo" "usr_1" true 3 2 1 false 1.

Definition scenario_store : Store :=
  mkStore "/data/mj3gc-data.json" (mkData 1 1 [] [scenario_key]) ∅.

Definition saturated_key : APIKey.t :=
  APIKey.mk "key_9" "mj3gc-worn" "" "" true 0 int64_max 0 false 1.

Definition saturated_store : Store :=
  mkStore "/data/mj3gc-data.json" (mkData 1 1 [] [saturated_key]) ∅.

(** The specification's scenario as a run: two concurrent admissions, the
    completion of the first, one more admission. *)
Definition scenario_ops : list op :=
  [OpBeginRequest "mj3gc-secret"; OpBeginRequest "mj3gc-secret";
   OpEndRequest "mj3gc-secret" true; OpBeginRequest "mj3gc-secret"].


(** An administrator creates a key with ceiling 2, two requests are
    admitted, and the administrator lowers the ceiling of the key to 1
    while both are in flight. *)
Definition wide_key : APIKey.t :=
  APIKey.mk "key_1" "mj3gc-secret" "demo" "usr_1" true 0 0 2 false 1.

Definition narrow_key : APIKey.t :=
  APIKey.mk "key_1" "mj3gc-secret" "demo" "usr_1" true 0 0 1 false 1.

Definition lowering_ops : list op :=
  [OpUpsertAPIKey wide_key 1 "r4nd0m";
   OpBeginRequest "mj3gc-secret"; OpBeginRequest "mj3gc-secret";
   OpUpsertAPIKey narrow_key 2 "r4nd0m"].

(** ** Vocabulary of the credential claims *)

(** The entry point accepted the request. *)
Definition accepts (res : AccessResult + access_error) : bool :=
  match res with
  | inl _ => true
  | inr _ => false
  end.

(** An [Authorization] header value that uses the [Bearer] scheme, and one
    that uses the [Basic] scheme, as the extractors test for them. *)
Definition uses_bearer (ah : string) : bool :=
  match SplitN2 ah with
  | [p0; _] => EqualFold p0 "bearer"
  | _ => false
  end.

Definition uses_basic (ah : string) : bool := HasPrefix (ToLower ah) "basic ".

(** A request with HTTP Basic credentials for a front proxy and the API
    key in [X-Api-Key]; one with the key in the query; one with the key in
    a bearer-less [Authorization] header. *)
Definition basic_request : Request :=
  mkRequest {[ "Authorization" := ["Basic dXNlcjpwYXNz"];
               "X-Api-Key" := ["mj3gc-secret"] ]} None.

Definition query_request : Request :=
  mkRequest ∅ (Some {[ "key" := ["mj3gc-secret"] ]}).

Definition raw_request : Request :=
  mkRequest {[ "Authorization" := ["  mj3gc-secret "] ]} None.

Definition compat_key : APIKey.t :=
  APIKey.mk "key_1" "mj3gc-secret" "demo" "usr_1" true 3 2 1 true 1.

Definition compat_store : Store :=
  mkStore "/data/mj3gc-data.json" (mkData 1 1 [] [compat_key]) ∅.




(** ** The management handler that reads a snapshot *)

Definition SanitizeUser (user : User.t) : User.t :=
  User.with_PasswordHash "" user.

(** The JSON object [GetMJ3GCState] answers with. *)
Record StateResponse : Type := mkStateResponse {
  resp_version : Z;
  resp_updated_at : Time;
  resp_users : list User.t;
  resp_api_keys : list APIKey.t
}.

Definition GetMJ3GCState (s : Store) : StateResponse :=
  let data := Snapshot s in
  {| resp_version := Version data;
     resp_updated_at := UpdatedAt data;
     resp_users := SanitizeUser <$> Users data;
     resp_api_keys := APIKeys data |}.

(** ** Documents

    For the examples the JSON codec is given by a table of documents: the
    text of a file next to the Record Set [json.Unmarshal] decodes it to,
    which is also the Record Set [json.MarshalIndent] prints as that text.
    Any other text is malformed. *)
Definition doc_Unmarshal (docs : list (string * Data)) (raw : string)
  : result Data :=
  match List.find (λ p, bool_decide (p.1 = raw)) docs with
  | Some p => Ok p.2
  | None => Err (ErrDecode "invalid character")
  end.

Definition doc_MarshalIndent (docs : list (string * Data)) (d : Data)
  : result string :=
  match List.find (λ p, bool_decide (p.2 = d)) docs with
  | Some p => Ok p.1
  | None => Err (Errorf "json: unsupported value")
  end.

(** The double quote, which a string literal here cannot hold. *)
Definition dq : string := String (ascii_of_nat 34) EmptyString.

(** The document [{"version": -1}]. *)
Definition negative_text : string :=
  "{" +:+ dq +:+ "version" +:+ dq +:+ ": -1}".

Definition negative_docs : list (string * Data) :=
  [(negative_text, mkData (-1) Time_zero [] [])].

Definition data_path : string := "/data/mj3gc-data.json".

(** The copy [Save] serializes: the snapshot, stamped with the time of
    the call. *)
Definition stamped (s : Store) (now : Time) : Data :=
  mkData (Version (data s)) now (Users (data s)) (APIKeys (data s)).

(** An operating system that reports no error and names the temporary
    file [tmp]. *)
Definition quiet (tmp : string) : SaveIO :=
  mkSaveIO tmp None None None None None.

(** A store that was never loaded (its version is still 0) and got one
    key; the document [Save] writes for it at time 7. *)
Definition unloaded_store : Store :=
  (UpsertAPIKey scenario_key 1 "r4nd0m" (SetPath data_path NewStore)).2.

Definition unloaded_docs : list (string * Data) :=
  [("unloaded.json", stamped unloaded_store 7)].

(** The document [Save] writes for the scenario's store at time 7. *)
Definition scenario_docs : list (string * Data) :=
  [("scenario.json", stamped scenario_store 7)].

(** ** Slices and their backing arrays

    The store's two sequences are Go slices: a header (the backing array
    and a length) next to arrays that live in memory and that several
    headers can share. Arrays are kept by address; the length of an array
    is the capacity of the slices on it. What the runtime decides at an
    allocation, the spare capacity, is an input. *)
Record Slice : Type := mkSlice {
  base : option nat;
  len : nat
}.

(** The nil slice. *)
Definition nil_slice : Slice := mkSlice None 0.

Section Slices.
Context {A : Type}.

Definition backing (h : gmap nat (list A)) (sl : Slice) : list A :=
  match base sl with
  | Some b => default [] (h !! b)
  | None => []
  end.

(** The elements of a slice, and its capacity. *)
Definition elems (h : gmap nat (list A)) (sl : Slice) : list A :=
  take (len sl) (backing h sl).

Definition cap (h : gmap nat (list A)) (sl : Slice) : nat :=
  length (backing h sl).

(** A new array, at an address that is not in use. *)
Definition new_array (h : gmap nat (list A)) (xs : list A)
  : nat * gmap nat (list A) :=
  let b := fresh (dom h) in (b, <[b := xs]> h).

(** Assignments [sl[i] = x] that turn the elements of [sl] into [xs], a
    sequence of the same length: the array is updated where it is. *)
Definition write_elems (h : gmap nat (list A)) (sl : Slice) (xs : list A)
  : gmap nat (list A) :=
  match base sl with
  | Some b => <[b := xs ++ drop (len sl) (backing h sl)]> h
  | None => h
  end.

(** [append(sl, x)]: in the array of [sl] when it has room, in a new and
    larger array otherwise. *)
Definition append1 (zero : A) (spare : nat) (h : gmap nat (list A))
    (sl : Slice) (x : A) : Slice * gmap nat (list A) :=
  if bool_decide (len sl < cap h sl)%nat then
    (mkSlice (base sl) (S (len sl)),
     match base sl with
     | Some b => <[b := <[len sl := x]> (backing h sl)]> h
     | None => h
     end)
  else
    let '(b, h') := new_array h (elems h sl ++ x :: replicate spare zero) in
    (mkSlice (Some b) (S (len sl)), h').

(** [append([]T(nil), sl...)]: nil for no elements, a new array with the
    elements otherwise. *)
Definition clone (zero : A) (spare : nat) (h : gmap nat (list A)) (sl : Slice)
  : Slice * gmap nat (list A) :=
  if bool_decide (len sl = 0)%nat then (nil_slice, h)
  else
    let '(b, h') := new_array h (elems h sl ++ replicate spare zero) in
    (mkSlice (Some b) (len sl), h').

(** A slice with the elements [xs] in a new array: what [make] followed by
    appends within the capacity builds, and what the decoder builds. *)
Definition build (zero : A) (spare : nat) (h : gmap nat (list A)) (xs : list A)
  : Slice * gmap nat (list A) :=
  let '(b, h') := new_array h (xs ++ replicate spare zero) in
  (mkSlice (Some b) (length xs), h').

(** A slice header that makes sense in [h]: its array is there and is as
    long as the slice at least. *)
Definition slice_ok (h : gmap nat (list A)) (sl : Slice) : Prop :=
  (len sl ≤ cap h sl)%nat ∧
  match base sl with
  | Some b => b ∈ dom h
  | None => True
  end.

(** Two slices that share no array. *)
Definition apart (sl1 sl2 : Slice) : Prop :=
  ∀ b, base sl1 = Some b → base sl2 ≠ Some b.

(** A change of memory and of a slice header, from [sl] in [h] to [sl']
    in [h'], that is the slice's own business: every other slice that
    shares no array with [sl] reads as before, and shares none with [sl']. *)
Definition slice_step (h : gmap nat (list A)) (sl : Slice)
    (h' : gmap nat (list A)) (sl' : Slice) : Prop :=
  slice_ok h' sl' ∧
  ∀ sl2, slice_ok h sl2 → apart sl2 sl →
    backing h' sl2 = backing h sl2 ∧ slice_ok h' sl2 ∧ apart sl2 sl'.

End Slices.

(** ** The store in memory

    The store with its two sequences as slices on arrays in memory. Every
    operation is the operation on values above, together with where its
    result is put: in the array the store's slice is on, or in a new one. *)
Definition User_zero : User.t := User.mk "" "" "" "" false Time_zero.
Definition APIKey_zero : APIKey.t :=
  APIKey.mk "" "" "" "" false 0 0 0 false Time_zero.

Record Mem : Type := mkMem {
  user_arrays : gmap nat (list User.t);
  key_arrays : gmap nat (list APIKey.t)
}.

(** [Data] with its slice headers. *)
Record HData : Type := mkHData {
  hVersion : Z;
  hUpdatedAt : Time;
  hUsers : Slice;
  hAPIKeys : Slice
}.

Record HStore : Type := mkHStore {
  hpath : string;
  hdata : HData;
  hinflight : gmap string Z
}.

(** What a [Data] and a store hold, read through memory. *)
Definition Data_of (m : Mem) (d : HData) : Data :=
  mkData (hVersion d) (hUpdatedAt d)
         (elems (user_arrays m) (hUsers d)) (elems (key_arrays m) (hAPIKeys d)).

Definition Store_of (m : Mem) (hs : HStore) : Store :=
  mkStore (hpath hs) (Data_of m (hdata hs)) (hinflight hs).

Definition with_hUsers (sl : Slice) (hs : HStore) : HStore :=
  mkHStore (hpath hs)
    (mkHData (hVersion (hdata hs)) (hUpdatedAt (hdata hs)) sl
             (hAPIKeys (hdata hs)))
    (hinflight hs).

Definition with_hAPIKeys (sl : Slice) (hs : HStore) : HStore :=
  mkHStore (hpath hs)
    (mkHData (hVersion (hdata hs)) (hUpdatedAt (hdata hs))
             (hUsers (hdata hs)) sl)
    (hinflight hs).

Definition with_hinflight (fl : gmap string Z) (hs : HStore) : HStore :=
  mkHStore (hpath hs) (hdata hs) fl.

(** [snapshotLocked]: the returned [Data] has its own two slices. *)
Definition h_snapshotLocked (su sk : nat) (m : Mem) (hs : HStore)
  : HData * Mem :=
  let '(us, ua) := clone User_zero su (user_arrays m) (hUsers (hdata hs)) in
  let '(ks, ka) := clone APIKey_zero sk (key_arrays m) (hAPIKeys (hdata hs)) in
  (mkHData (hVersion (hdata hs)) Time_zero us ks, mkMem ua ka).

Definition h_Snapshot (su sk : nat) (m : Mem) (hs : HStore) : HData * Mem :=
  h_snapshotLocked su sk m hs.

(** [BeginRequest] writes the counter only. *)
Definition h_BeginRequest (value : string) (m : Mem) (hs : HStore)
  : Mem * HStore :=
  (m, with_hinflight (inflight (BeginRequest value (Store_of m hs)).2) hs).

(** [EndRequest] increments [UsedCount] through a pointer into the
    store's slice: the array is updated where it is. *)
Definition h_EndRequest (value : string) (count : bool) (m : Mem) (hs : HStore)
  : Mem * HStore :=
  let s' := EndRequest value count (Store_of m hs) in
  (mkMem (user_arrays m)
         (write_elems (key_arrays m) (hAPIKeys (hdata hs)) (APIKeys (data s'))),
   with_hinflight (inflight s') hs).

(** [UpsertAPIKey]: [s.data.APIKeys[i] = key] in place, or an append. *)
Definition h_UpsertAPIKey (key : APIKey.t) (now : Time) (rnd : string)
    (spare : nat) (m : Mem) (hs : HStore) : Mem * HStore :=
  let sl := hAPIKeys (hdata hs) in
  let ks := elems (key_arrays m) sl in
  if bool_decide (TrimSpace (APIKey.Key key) = "") then (m, hs)
  else
    let key := if IsZero (APIKey.CreatedAt key)
               then APIKey.with_CreatedAt now key else key in
    if existsb (λ existing,
                  bool_decide (APIKey.Key existing = APIKey.Key key)
                  && bool_decide (APIKey.ID existing ≠ APIKey.ID key)) ks
    then (m, hs)
    else if bool_decide (APIKey.ID key = "") then
      let key := APIKey.with_ID (newID "key" rnd) key in
      let '(sl', ka) := append1 APIKey_zero spare (key_arrays m) sl key in
      (mkMem (user_arrays m) ka, with_hAPIKeys sl' hs)
    else
      match replaceKey ks key with
      | Some ks' =>
          (mkMem (user_arrays m) (write_elems (key_arrays m) sl ks'), hs)
      | None =>
          let '(sl', ka) := append1 APIKey_zero spare (key_arrays m) sl key in
          (mkMem (user_arrays m) ka, with_hAPIKeys sl' hs)
      end.

(** [DeleteAPIKey]: the survivors go to [out], made with the capacity
    [len(s.data.APIKeys)], which replaces the store's slice when the key
    was found. *)
Definition h_DeleteAPIKey (id : string) (m : Mem) (hs : HStore)
  : Mem * HStore :=
  let ks := elems (key_arrays m) (hAPIKeys (hdata hs)) in
  if bool_decide (TrimSpace id = "") then (m, hs)
  else
    let out := filter (λ k, APIKey.ID k ≠ id) ks in
    let '(b, ka) :=
      new_array (key_arrays m)
        (out ++ replicate (length ks - length out) APIKey_zero) in
    if existsb (λ k, bool_decide (APIKey.ID k = id)) ks
    then (mkMem (user_arrays m) ka,
          with_hAPIKeys (mkSlice (Some b) (length out)) hs)
    else (mkMem (user_arrays m) ka, hs).

Definition h_UpsertUser (user : User.t) (now : Time) (rnd : string)
    (spare : nat) (m : Mem) (hs : HStore) : Mem * HStore :=
  let sl := hUsers (hdata hs) in
  let us := elems (user_arrays m) sl in
  if bool_decide (TrimSpace (User.Username user) = "") then (m, hs)
  else
    let user := if bool_decide (User.Role user = "")
                then User.with_Role roleUser user else user in
    if bool_decide (User.Role user ≠ roleOwner)
       && bool_decide (User.Role user ≠ roleUser) then (m, hs)
    else
      let user := if IsZero (User.CreatedAt user)
                  then User.with_CreatedAt now user else user in
      if existsb (λ existing,
                    EqualFold (User.Username existing) (User.Username user)
                    && bool_decide (User.ID existing ≠ User.ID user)) us
      then (m, hs)
      else if bool_decide (User.ID user = "") then
        let user := User.with_ID (newID "usr" rnd) user in
        let '(sl', ua) := append1 User_zero spare (user_arrays m) sl user in
        (mkMem ua (key_arrays m), with_hUsers sl' hs)
      else
        match replaceUser us user with
        | Some us' =>
            (mkMem (write_elems (user_arrays m) sl us') (key_arrays m), hs)
        | None =>
            let '(sl', ua) := append1 User_zero spare (user_arrays m) sl user in
            (mkMem ua (key_arrays m), with_hUsers sl' hs)
        end.

Definition h_DeleteUser (id : string) (m : Mem) (hs : HStore) : Mem * HStore :=
  let us := elems (user_arrays m) (hUsers (hdata hs)) in
  if bool_decide (TrimSpace id = "") then (m, hs)
  else
    let out := filter (λ u, User.ID u ≠ id) us in
    let '(b, ua) :=
      new_array (user_arrays m)
        (out ++ replicate (length us - length out) User_zero) in
    if existsb (λ u, bool_decide (User.ID u = id)) us
    then (mkMem ua (key_arrays m),
          with_hUsers (mkSlice (Some b) (length out)) hs)
    else (mkMem ua (key_arrays m), hs).

(** [Load]: the decoder builds the sequences in arrays of its own; the
    Record Set of an absent file has two nil slices. *)
Definition h_Load (unmarshal : string → result Data) (fault : option error)
    (now : Time) (fs : FS) (su sk : nat) (m : Mem) (hs : HStore)
  : Mem * HStore :=
  if bool_decide (hpath hs = "") then (m, hs)
  else
    match os_ReadFile fs fault (hpath hs) with
    | Err err =>
        if os_IsNotExist err
        then (m, mkHStore (hpath hs) (mkHData 1 now nil_slice nil_slice)
                          (hinflight hs))
        else (m, hs)
    | Ok raw =>
        match unmarshal raw with
        | Err err => (m, hs)
        | Ok d =>
            let '(us, ua) := build User_zero su (user_arrays m) (Users d) in
            let '(ks, ka) := build APIKey_zero sk (key_arrays m) (APIKeys d) in
            (mkMem ua ka,
             mkHStore (hpath hs)
               (mkHData (if bool_decide (Version d = 0) then 1 else Version d)
                        (UpdatedAt d) us ks)
               (hinflight hs))
        end
    end.

(** One operation of the store in memory; [su] and [sk] are the spare
    capacities of the user and key arrays it allocates, if it does. *)
Definition h_step (o : op) (su sk : nat) (m : Mem) (hs : HStore)
  : Mem * HStore :=
  match o with
  | OpBeginRequest value => h_BeginRequest value m hs
  | OpEndRequest value count => h_EndRequest value count m hs
  | OpUpsertAPIKey key now rnd => h_UpsertAPIKey key now rnd sk m hs
  | OpDeleteAPIKey id => h_DeleteAPIKey id m hs
  | OpUpsertUser user now rnd => h_UpsertUser user now rnd su m hs
  | OpDeleteUser id => h_DeleteUser id m hs
  | OpSetPath p => (m, mkHStore (TrimSpace p) (hdata hs) (hinflight hs))
  | OpLoad unmarshal fault now fs => h_Load unmarshal fault now fs su sk m hs
  end.

Fixpoint h_run (ops : list (op * nat * nat)) (m : Mem) (hs : HStore)
  : Mem * HStore :=
  match ops with
  | [] => (m, hs)
  | (o, su, sk) :: rest =>
      let '(m1, hs1) := h_step o su sk m hs in h_run rest m1 hs1
  end.

(** The store's slices make sense in memory. *)
Definition store_ok (m : Mem) (hs : HStore) : Prop :=
  slice_ok (user_arrays m) (hUsers (hdata hs)) ∧
  slice_ok (key_arrays m) (hAPIKeys (hdata hs)).

(** A [Data] that shares no array with the store. *)
Definition unshared (d : HData) (hs : HStore) : Prop :=
  apart (hUsers d) (hUsers (hdata hs)) ∧
  apart (hAPIKeys d) (hAPIKeys (hdata hs)).

Definition data_ok (m : Mem) (d : HData) : Prop :=
  slice_ok (user_arrays m) (hUsers d) ∧ slice_ok (key_arrays m) (hAPIKeys d).

(** The scenario's store in memory: the key in an array at address 0. *)
Definition scenario_mem : Mem := mkMem ∅ {[ 0%nat := [scenario_key] ]}.

Definition scenario_hstore : HStore :=
  mkHStore "/data/mj3gc-data.json"
           (mkHData 1 1 nil_slice (mkSlice (Some 0%nat) 1)) ∅.

(** ** Vocabulary of the further properties *)


(** The operations of request traffic. *)
Definition traffic_op (o : op) : bool :=
  match o with
  | OpBeginRequest _ | OpEndRequest _ _ => true
  | _ => false
  end.

(** No in-flight count is negative. *)
Definition counts_nonneg (s : Store) : Prop :=
  ∀ id, 0 ≤ inflight_get (inflight s) id.

(** Every in-flight count is a non-negative [int]. *)
Definition counts_sound (s : Store) : Prop :=
  ∀ id, 0 ≤ inflight_get (inflight s) id ≤ int64_max.

Definition limits_typed (ks : list APIKey.t) : Prop :=
  ∀ k, k ∈ ks → in_int64 (APIKey.ConcurrencyLimit k).

(** The typing of the keys an operation brings in: the argument of an
    upsert, the keys a decoder returns. *)
Definition op_typed (o : op) : Prop :=
  match o with
  | OpUpsertAPIKey key _ _ => in_int64 (APIKey.ConcurrencyLimit key)
  | OpLoad unmarshal _ _ _ =>
      ∀ raw d, unmarshal raw = Ok d → limits_typed (APIKeys d)
  | _ => True
  end.

(** ** The quota middleware *)

Definition StatusOK : Z := 200.
Definition StatusBadRequest : Z := 400.
Definition StatusUnauthorized : Z := 401.
Definition StatusForbidden : Z := 403.
Definition StatusNotFound : Z := 404.
Definition StatusTooManyRequests : Z := 429.
Definition StatusInternalServerError : Z := 500.
Definition StatusServiceUnavailable : Z := 503.

(** [err.Error()]. *)
Definition error_text (e : error) : string :=
  match e with
  | ErrKeyNotFound => "api key not found"
  | ErrKeyDisabled => "api key disabled"
  | ErrQuotaExceeded => "quota exceeded"
  | ErrConcurrencyExceeded => "concurrency exceeded"
  | ErrUserNotFound => "user not found"
  | ErrInvalidCredentials => "invalid credentials"
  | ErrDuplicateUsername => "duplicate username"
  | ErrDuplicateAPIKey => "duplicate api key"
  | ErrInvalidConfiguration => "invalid configuration"
  | Errorf msg => msg
  | ErrNotExist => "file does not exist"
  | ErrIO msg => msg
  | ErrDecode msg => msg
  end.

(** A value of the request context, of type [any]: a string or not. *)
Inductive ctx_value : Type :=
  | CtxString (v : string)
  | CtxOther.

(** [QuotaMiddleware] for a non-nil store. [apiKey] is what
    [c.Get("apiKey")] finds; [next] stands for [c.Next()], the rest of
    the handler chain, which runs on the store and the file system and
    leaves the response status [c.Writer.Status()] reads. The result is
    the abort, if any (status and error text), with the store and the
    file system afterwards. *)
Definition QuotaMiddleware (marshal : Data → result string)
    (apiKey : option ctx_value) (next : Store → FS → Store * FS * Z)
    (io : SaveIO) (now : Time) (s : Store) (fs : FS)
  : option (Z * string) * Store * FS :=
  match apiKey with
  | None => let '(s', fs', _) := next s fs in (None, s', fs')
  | Some v =>
      let keyValue := match v with CtxString x => x | CtxOther => "" end in
      if bool_decide (keyValue = "") then
        let '(s', fs', _) := next s fs in (None, s', fs')
      else
        match BeginRequest keyValue s with
        | (Err err, s1) =>
            let status :=
              match err with
              | ErrQuotaExceeded | ErrConcurrencyExceeded =>
                  StatusTooManyRequests
              | ErrKeyNotFound | ErrKeyDisabled => StatusUnauthorized
              | _ => StatusForbidden
              end in
            (Some (status, error_text err), s1, fs)
        | (Ok _, s1) =>
            let '(s2, fs2, status) := next s1 fs in
            let success := bool_decide (status < StatusBadRequest) in
            let s3 := EndRequest keyValue success s2 in
            let fs3 := if success then (Save marshal io now fs2 s3).2
                       else fs2 in
            (None, s3, fs3)
        end
  end.

(** ** Well-formed key tables *)

(** The keys of a store as its own operations build them: identifiers
    that are not empty and pairwise distinct, credential strings that are
    pairwise distinct. *)
Definition keys_wf (ks : list APIKey.t) : Prop :=
  NoDup (APIKey.ID <$> ks) ∧ NoDup (APIKey.Key <$> ks) ∧
  ∀ k, k ∈ ks → APIKey.ID k ≠ "".

(** What an operation must bring for the key table to stay well formed:
    the random identifier [newID] gives a new key is not one in use, and
    a file that is loaded holds a well-formed table. *)
Definition op_fresh (o : op) (s : Store) : Prop :=
  match o with
  | OpUpsertAPIKey key _ rnd =>
      APIKey.ID key = "" →
      newID "key" rnd ∉ (APIKey.ID <$> APIKeys (data s))
  | OpLoad unmarshal _ _ _ =>
      ∀ raw d, unmarshal raw = Ok d → keys_wf (APIKeys d)
  | _ => True
  end.

Fixpoint run_fresh (ops : list op) (s : Store) : Prop :=
  match ops with
  | [] => True
  | o :: rest => op_fresh o s ∧ run_fresh rest (step o s).1
  end.

(** ** Well-formed user tables *)


Section Passwords.
(** [bcrypt.CompareHashAndPassword], true when it returns no error. *)
Variable bcrypt_Compare : string → string → bool.

End Passwords.

(** ** The portal *)

(** [PortalContext]; [Key] is a pointer to the middleware's copy of the
    key record. *)
Record PortalContext : Type := mkPortalContext {
  ctx_User : User.t;
  ctx_Key : option APIKey.t
}.

(** [PortalAuthMiddleware] for a non-nil store: the portal context it
    sets before the rest of the chain, or the status it aborts with. *)
Definition PortalAuthMiddleware (s : Store) (r : Request)
  : PortalContext + Z :=
  match authenticateAPIKey s r with
  | Some apiKey =>
      let user := default User_zero (FindUserByID (APIKey.UserID apiKey) s) in
      inl (mkPortalContext user (Some apiKey))
  | None => inr StatusUnauthorized
  end.

Definition ListAPIKeysByUser (userID : string) (s : Store) : list APIKey.t :=
  let userID := TrimSpace userID in
  if bool_decide (userID = "") then []
  else filter (λ k, APIKey.UserID k = userID) (APIKeys (data s)).

(** [portalKeys] of the management handlers, for a non-nil store. *)
Definition portalKeys (ctx : PortalContext) (s : Store) : list APIKey.t :=
  match ctx_Key ctx with
  | Some key => [key]
  | None =>
      if bool_decide (User.ID (ctx_User ctx) = "") then []
      else ListAPIKeysByUser (User.ID (ctx_User ctx)) s
  end.



(** ** Atomic replacement of the backing file *)


(** ** The management handlers for keys *)

(** [mj3gcKeyRequest], the body of an upsert; a pointer field is [None]
    when the JSON object does not have it. *)
Record mj3gcKeyRequest : Type := mkKeyRequest {
  req_ID : string;
  req_Key : option string;
  req_Label : option string;
  req_UserID : option string;
  req_Enabled : option bool;
  req_TotalLimit : option Z;
  req_ConcurrencyLimit : option Z;
  req_CompatibilityMode : option bool;
  req_ResetUsage : bool
}.

(** What a handler answers with [c.JSON]: a status with the key, with
    the user, with the object [status: ok], or with an error text. *)
Inductive response : Type :=
  | RespAPIKey (status : Z) (key : APIKey.t)
  | RespUser (status : Z) (user : User.t)
  | RespStatus (status : Z)
  | RespError (status : Z) (msg : string).

(** [NewAPIKey]; [rand] is what reading 24 random bytes gives, in
    unpadded URL-safe base64, or the error of the read. *)
Definition NewAPIKey (rand : result string) : result string :=
  match rand with
  | Ok text => Ok ("mj3gc-" +:+ text)
  | Err err => Err err
  end.

Definition key_with_Key (v : string) (k : APIKey.t) : APIKey.t :=
  APIKey.mk (APIKey.ID k) v (APIKey.Label k) (APIKey.UserID k)
    (APIKey.Enabled k) (APIKey.TotalLimit k) (APIKey.UsedCount k)
    (APIKey.ConcurrencyLimit k) (APIKey.CompatibilityMode k)
    (APIKey.CreatedAt k).
Definition key_with_Label (v : string) (k : APIKey.t) : APIKey.t :=
  APIKey.mk (APIKey.ID k) (APIKey.Key k) v (APIKey.UserID k)
    (APIKey.Enabled k) (APIKey.TotalLimit k) (APIKey.UsedCount k)
    (APIKey.ConcurrencyLimit k) (APIKey.CompatibilityMode k)
    (APIKey.CreatedAt k).
Definition key_with_UserID (v : string) (k : APIKey.t) : APIKey.t :=
  APIKey.mk (APIKey.ID k) (APIKey.Key k) (APIKey.Label k) v
    (APIKey.Enabled k) (APIKey.TotalLimit k) (APIKey.UsedCount k)
    (APIKey.ConcurrencyLimit k) (APIKey.CompatibilityMode k)
    (APIKey.CreatedAt k).
Definition key_with_Enabled (v : bool) (k : APIKey.t) : APIKey.t :=
  APIKey.mk (APIKey.ID k) (APIKey.Key k) (APIKey.Label k) (APIKey.UserID k)
    v (APIKey.TotalLimit k) (APIKey.UsedCount k)
    (APIKey.ConcurrencyLimit k) (APIKey.CompatibilityMode k)
    (APIKey.CreatedAt k).
Definition key_with_TotalLimit (v : Z) (k : APIKey.t) : APIKey.t :=
  APIKey.mk (APIKey.ID k) (APIKey.Key k) (APIKey.Label k) (APIKey.UserID k)
    (APIKey.Enabled k) v (APIKey.UsedCount k)
    (APIKey.ConcurrencyLimit k) (APIKey.CompatibilityMode k)
    (APIKey.CreatedAt k).
Definition key_with_ConcurrencyLimit (v : Z) (k : APIKey.t) : APIKey.t :=
  APIKey.mk (APIKey.ID k) (APIKey.Key k) (APIKey.Label k) (APIKey.UserID k)
    (APIKey.Enabled k) (APIKey.TotalLimit k) (APIKey.UsedCount k)
    v (APIKey.CompatibilityMode k) (APIKey.CreatedAt k).
Definition key_with_CompatibilityMode (v : bool) (k : APIKey.t) : APIKey.t :=
  APIKey.mk (APIKey.ID k) (APIKey.Key k) (APIKey.Label k) (APIKey.UserID k)
    (APIKey.Enabled k) (APIKey.TotalLimit k) (APIKey.UsedCount k)
    (APIKey.ConcurrencyLimit k) v (APIKey.CreatedAt k).

(** The key [UpsertMJ3GCKey] builds from the body before it looks at the
    credential: the stored key with the body's identifier if there is
    one, the zero key otherwise, with the fields the body has. *)
Definition keyFromRequest (body : mj3gcKeyRequest) (s : Store) : APIKey.t :=
  let key := APIKey_zero in
  let key :=
    if bool_decide (TrimSpace (req_ID body) ≠ "") then
      let key := match FindAPIKeyByID (TrimSpace (req_ID body)) s with
                 | Some existing => existing
                 | None => key
                 end in
      APIKey.with_ID (TrimSpace (req_ID body)) key
    else key in
  let key := match req_Key body with
             | Some v => key_with_Key (TrimSpace v) key
             | None => key
             end in
  let key := match req_Label body with
             | Some v => key_with_Label (TrimSpace v) key
             | None => key
             end in
  let key := match req_UserID body with
             | Some v => key_with_UserID (TrimSpace v) key
             | None => key
             end in
  let key := match req_Enabled body with
             | Some v => key_with_Enabled v key
             | None => if bool_decide (APIKey.ID key = "")
                       then key_with_Enabled true key else key
             end in
  let key := match req_TotalLimit body with
             | Some v =>
                 let key := key_with_TotalLimit v key in
                 if bool_decide (APIKey.TotalLimit key < 0)
                 then key_with_TotalLimit 0 key else key
             | None => key
             end in
  let key := match req_ConcurrencyLimit body with
             | Some v =>
                 let key := key_with_ConcurrencyLimit v key in
                 if bool_decide (APIKey.ConcurrencyLimit key < 0)
                 then key_with_ConcurrencyLimit 0 key else key
             | None => key
             end in
  let key := match req_CompatibilityMode body with
             | Some v => key_with_CompatibilityMode v key
             | None => key
             end in
  if req_ResetUsage body then APIKey.with_UsedCount 0 key else key.

Section Handlers.
Variable json_MarshalIndent : Data → result string.

(** [UpsertMJ3GCKey]; [body] is [None] when [ShouldBindJSON] fails. *)
Definition UpsertMJ3GCKey (body : option mj3gcKeyRequest)
    (rand : result string) (io : SaveIO) (now : Time) (rnd : string)
    (s : Store) (fs : FS) : response * Store * FS :=
  match body with
  | None => (RespError StatusBadRequest "invalid body", s, fs)
  | Some body =>
      let key := keyFromRequest body s in
      let generated :=
        if bool_decide (APIKey.Key key = "") then
          match NewAPIKey rand with
          | Ok generated => Ok (key_with_Key generated key)
          | Err err => Err err
          end
        else Ok key in
      match generated with
      | Err _ =>
          (RespError StatusInternalServerError "failed to generate api key",
           s, fs)
      | Ok key =>
          match UpsertAPIKey key now rnd s with
          | (Err err, s1) =>
              (RespError StatusBadRequest (error_text err), s1, fs)
          | (Ok updated, s1) =>
              match Save json_MarshalIndent io now fs s1 with
              | (Some _, fs1) =>
                  (RespError StatusInternalServerError
                     "failed to persist store", s1, fs1)
              | (None, fs1) => (RespAPIKey StatusOK updated, s1, fs1)
              end
          end
      end
  end.

(** [DeleteMJ3GCKey]; [param] is [c.Param("id")]. *)
Definition DeleteMJ3GCKey (param : string) (io : SaveIO) (now : Time)
    (s : Store) (fs : FS) : response * Store * FS :=
  let id := TrimSpace param in
  if bool_decide (id = "") then
    (RespError StatusBadRequest "missing id", s, fs)
  else
    match DeleteAPIKey id s with
    | (Some err, s1) => (RespError StatusNotFound (error_text err), s1, fs)
    | (None, s1) =>
        match Save json_MarshalIndent io now fs s1 with
        | (Some _, fs1) =>
            (RespError StatusInternalServerError "failed to persist store",
             s1, fs1)
        | (None, fs1) => (RespStatus StatusOK, s1, fs1)
        end
    end.

End Handlers.


(** ** Usage reports *)

(** [usage.APISnapshot], as far as [buildKeyUsage] reads it, and the
    [APIs] map of a [usage.StatisticsSnapshot]. *)
Record APISnapshot : Type := mkAPISnapshot {
  TotalRequests : Z;
  TotalTokens : Z
}.

Abbreviation StatisticsSnapshot := (gmap string APISnapshot).

Record mj3gcKeyUsage : Type := mkKeyUsage {
  usage_ID : string;
  usage_Key : string;
  usage_Label : string;
  usage_UserID : string;
  usage_TotalLimit : Z;
  usage_UsedCount : Z;
  usage_Remaining : Z;
  usage_Concurrency : Z;
  usage_CompatMode : bool;
  usage_TotalRequest : Z;
  usage_TotalTokens : Z
}.

Definition buildKeyUsage (key : APIKey.t) (snapshot : StatisticsSnapshot)
  : mj3gcKeyUsage :=
  let remaining := 0 in
  let remaining :=
    if bool_decide (APIKey.TotalLimit key > 0) then
      let remaining := wrap64 (APIKey.TotalLimit key - APIKey.UsedCount key) in
      if bool_decide (remaining < 0) then 0 else remaining
    else remaining in
  let stats := default (mkAPISnapshot 0 0) (snapshot !! APIKey.Key key) in
  {| usage_ID := APIKey.ID key;
     usage_Key := APIKey.Key key;
     usage_Label := APIKey.Label key;
     usage_UserID := APIKey.UserID key;
     usage_TotalLimit := APIKey.TotalLimit key;
     usage_UsedCount := APIKey.UsedCount key;
     usage_Remaining := remaining;
     usage_Concurrency := APIKey.ConcurrencyLimit key;
     usage_CompatMode := APIKey.CompatibilityMode key;
     usage_TotalRequest := TotalRequests stats;
     usage_TotalTokens := TotalTokens stats |}.

(** The [keys] of [GetMJ3GCUsage] and of [GetMJ3GCPortalUsage]. *)
Definition GetMJ3GCUsage (snapshot : StatisticsSnapshot) (s : Store)
  : list mj3gcKeyUsage :=
  (λ key, buildKeyUsage key snapshot) <$> ListAPIKeys s.

Definition GetMJ3GCPortalUsage (ctx : PortalContext)
    (snapshot : StatisticsSnapshot) (s : Store) : list mj3gcKeyUsage :=
  (λ key, buildKeyUsage key snapshot) <$> portalKeys ctx s.

(** The [users] of [GetMJ3GCUsers]. *)
Definition GetMJ3GCUsers (s : Store) : list User.t :=
  SanitizeUser <$> ListUsers s.

(** ** The access provider in the configuration *)


Section AccessConfig.
(** The fields of [sdkconfig.AccessProvider] next to [Name] and [Type],
    which this code leaves at their zero value. *)
Context {Rest : Type}.
Variable rest_zero : Rest.


End AccessConfig.

(** [newProvider]: the name of the provider it makes. *)
Definition newProvider (cfg_Name : string) : string :=
  let name := TrimSpace cfg_Name in
  if bool_decide (name = "") then providerType else name.

(** The body of a request for a new key, with a credential in white
    space and a negative limit; the key the handler makes of it at time
    7, and the store and the document with it. *)
Definition new_key_body : mj3gcKeyRequest :=
  mkKeyRequest "" (Some " mj3gc-second ") (Some "second") None None
    (Some (-5)) None None false.

Definition created_key : APIKey.t :=
  APIKey.mk "key_r4nd0m" "mj3gc-second" "second" "" true 0 0 0 false 7.

Definition created_store : Store :=
  mkStore "/data/mj3gc-data.json"
    (mkData 1 1 [] [scenario_key; created_key]) ∅.

Definition created_docs : list (string * Data) :=
  [("created.json", stamped created_store 7)].

(** An operating system on which the rename of [Save] fails. *)
Definition failing (tmp : string) : SaveIO :=
  mkSaveIO tmp None None None None (Some (ErrIO "rename: read-only")).

(** ** The management handler for users *)



Section UserHandler.
Variable json_MarshalIndent : Data → result string.
(** [bcrypt.GenerateFromPassword] at the default cost: the hash this
    call gives the password, or its error. *)
Variable bcrypt_Generate : string → result string.



End UserHandler.










(** A file that is not a document of the table. *)
Definition garbled_fs : FS := {[ data_path := "{ not json" ]}.

(** * Properties *)

(** ** Machine integers *)

Lemma wrap64_id z : in_int64 z → wrap64 z = z.
Proof.
  unfold in_int64, int64_min, int64_max, wrap64. intros H.
  rewrite Z.mod_small; lia.
Qed.

(** ** Resolution of a credential

    [FindAPIKey] is the store's lookup by credential string; the loops of
    [BeginRequest] and [EndRequest] stop at the same key. *)

Lemma find_key_spec (ks : list APIKey.t) v k :
  List.find (λ k, bool_decide (APIKey.Key k = v)) ks = Some k →
  ∃ i, ks !! i = Some k ∧ APIKey.Key k = v ∧
       ∀ j k', (j < i)%nat → ks !! j = Some k' → APIKey.Key k' ≠ v.
Proof.
  induction ks as [|k0 ks IH]; simpl; [done|].
  case_bool_decide as Hk.
  - intros [= <-]. exists 0%nat. split_and!; [done..|]. intros; lia.
  - intros (i & Hi & Hv & Hlt)%IH. exists (S i). split_and!; [done..|].
    intros [|j] k' Hj Hk'; simpl in Hk'.
    + by injection Hk' as <-.
    + eapply Hlt; [|done]. lia.
Qed.

Lemma find_key_none (ks : list APIKey.t) v :
  List.find (λ k, bool_decide (APIKey.Key k = v)) ks = None ↔
  ∀ k, k ∈ ks → APIKey.Key k ≠ v.
Proof.
  induction ks as [|k0 ks IH]; simpl.
  - split; [|done]. intros _ k Hk. by apply elem_of_nil in Hk.
  - case_bool_decide as Hk.
    + split; [done|]. intros H. destruct (H k0); [left|done].
    + rewrite IH. split.
      * intros H k [->|Hin]%elem_of_cons; auto.
      * intros H k Hin. apply H. by right.
Qed.

Lemma FindAPIKey_Some value s k :
  FindAPIKey value s = Some k →
  TrimSpace value ≠ "" ∧ k ∈ APIKeys (data s) ∧ APIKey.Key k = TrimSpace value.
Proof.
  unfold FindAPIKey. case_bool_decide; [done|].
  intros (i & Hi & Hv & _)%find_key_spec. split_and!; [done| |done].
  by eapply list_elem_of_lookup_2.
Qed.

Lemma FindAPIKey_None value s :
  FindAPIKey value s = None ↔
  TrimSpace value = "" ∨ ∀ k, k ∈ APIKeys (data s) → APIKey.Key k ≠ TrimSpace value.
Proof.
  unfold FindAPIKey. case_bool_decide as Hv.
  - split; [by left|done].
  - rewrite find_key_none. split; [by right|]. by intros [?|?].
Qed.

(** ** The loops, by the key they stop at *)

Lemma BeginRequest_loop_none ks v fl :
  List.find (λ k, bool_decide (APIKey.Key k = v)) ks = None →
  BeginRequest_loop ks v fl = (Err ErrKeyNotFound, fl).
Proof.
  induction ks as [|k0 ks IH]; simpl; [done|].
  case_bool_decide as Hk; [done|].
  rewrite bool_decide_eq_true_2; auto.
Qed.

Lemma BeginRequest_loop_some ks v fl key :
  List.find (λ k, bool_decide (APIKey.Key k = v)) ks = Some key →
  BeginRequest_loop ks v fl = BeginRequest_loop [key] v fl ∧ APIKey.Key key = v.
Proof.
  induction ks as [|k0 ks IH]; simpl; [done|].
  case_bool_decide as Hk.
  - intros [= <-]. rewrite bool_decide_eq_false_2; [|by auto]. done.
  - rewrite bool_decide_eq_true_2; auto.
Qed.

Lemma EndRequest_loop_none ks v count fl :
  List.find (λ k, bool_decide (APIKey.Key k = v)) ks = None →
  EndRequest_loop ks v count fl = (ks, fl).
Proof.
  induction ks as [|k0 ks IH]; simpl; [done|].
  case_bool_decide as Hk; [done|].
  rewrite bool_decide_eq_true_2; [|done]. intros ->%IH. done.
Qed.

Lemma EndRequest_loop_some ks v count fl key i :
  ks !! i = Some key → APIKey.Key key = v →
  (∀ j k', (j < i)%nat → ks !! j = Some k' → APIKey.Key k' ≠ v) →
  EndRequest_loop ks v count fl = (<[i := charge count key]> ks, release key fl).
Proof.
  revert i. induction ks as [|k0 ks IH]; intros i Hi Hv Hlt; [done|].
  destruct i as [|i]; simpl in *.
  - injection Hi as ->. rewrite bool_decide_eq_false_2; [|by auto]. done.
  - rewrite bool_decide_eq_true_2; [|by apply (Hlt 0%nat); [lia|]].
    rewrite (IH i); [done..|].
    intros j k' Hj Hk'. apply (Hlt (S j)); [lia|done].
Qed.

Lemma BeginRequest_resolved value s key :
  FindAPIKey value s = Some key →
  BeginRequest value s =
    let '(r, fl) := BeginRequest_loop [key] (APIKey.Key key) (inflight s) in
    (r, mkStore (path s) (data s) fl).
Proof.
  unfold FindAPIKey, BeginRequest. case_bool_decide as Hv; [done|].
  intros Hf. destruct (BeginRequest_loop_some _ _ (inflight s) _ Hf) as [-> ->].
  done.
Qed.

Lemma store_eta s : mkStore (path s) (data s) (inflight s) = s.
Proof. by destruct s. Qed.

Lemma data_eta d : mkData (Version d) (UpdatedAt d) (Users d) (APIKeys d) = d.
Proof. by destruct d. Qed.


Lemma inflight_get_empty id : inflight_get ∅ id = 0.
Proof. unfold inflight_get. by rewrite lookup_empty. Qed.

Lemma in_int64_small z : -1000 ≤ z ≤ 1000 → in_int64 z.
Proof. unfold in_int64, int64_min, int64_max. lia. Qed.

Lemma scenario_store_typed : Store_typed scenario_store.
Proof.
  split_and!.
  - apply in_int64_small; simpl; lia.
  - intros k ->%list_elem_of_singleton.
    split_and!; apply in_int64_small; simpl; lia.
  - intros id. simpl. rewrite inflight_get_empty. apply in_int64_small; lia.
Qed.



(** ** [EndRequest] *)

Lemma EndRequest_unresolved value count s :
  FindAPIKey value s = None → EndRequest value count s = s.
Proof.
  unfold FindAPIKey, EndRequest. case_bool_decide as Hv; [done|].
  intros Hnone. rewrite (EndRequest_loop_none _ _ count (inflight s) Hnone).
  by rewrite data_eta, store_eta.
Qed.

Lemma EndRequest_resolved value count s key :
  FindAPIKey value s = Some key →
  ∃ i, APIKeys (data s) !! i = Some key ∧
       EndRequest value count s =
         mkStore (path s)
           (mkData (Version (data s)) (UpdatedAt (data s)) (Users (data s))
                   (<[i := charge count key]> (APIKeys (data s))))
           (release key (inflight s)).
Proof.
  unfold FindAPIKey, EndRequest. case_bool_decide as Hv; [done|].
  intros (i & Hi & Hk & Hlt)%find_key_spec. exists i. split; [done|].
  by rewrite (EndRequest_loop_some _ _ count (inflight s) key i Hi Hk Hlt).
Qed.

(** [C3] When the credential resolves to a key, [EndRequest] with
    [countAsUsed=false] leaves every key record as it was, and with
    [countAsUsed=true] it replaces the resolved key, at its place in the
    sequence, by the same record with [UsedCount] one higher, provided the
    counter is below the largest [int64]; the keys at all other places are
    as they were. *)
Theorem EndRequest_used_count (value : string) (s : Store) (key : APIKey.t) :
  FindAPIKey value s = Some key →
  in_int64 (APIKey.UsedCount key) →
  ∃ i, APIKeys (data s) !! i = Some key ∧
    APIKeys (data (EndRequest value false s)) = APIKeys (data s) ∧
    (APIKey.UsedCount key < int64_max →
     APIKeys (data (EndRequest value true s)) =
       <[i := APIKey.with_UsedCount (APIKey.UsedCount key + 1) key]>
         (APIKeys (data s))).
Proof.
  intros Hf Hrange.
  destruct (EndRequest_resolved value false s key Hf) as (i & Hi & Hfalse).
  destruct (EndRequest_resolved value true s key Hf) as (i' & Hi' & Htrue).
  exists i'. split; [done|]. split.
  - rewrite Hfalse. simpl. by apply list_insert_id.
  - intros Hmax. rewrite Htrue. simpl. rewrite wrap64_id; [done|].
    unfold in_int64, int64_min, int64_max in *. lia.
Qed.

Lemma EndRequest_used_count_witness :
  ∃ i, APIKeys (data scenario_store) !! i = Some scenario_key ∧
    APIKeys (data (EndRequest "mj3gc-secret" false scenario_store)) =
      APIKeys (data scenario_store) ∧
    (APIKey.UsedCount scenario_key < int64_max →
     APIKeys (data (EndRequest "mj3gc-secret" true scenario_store)) =
       <[i := APIKey.with_UsedCount (APIKey.UsedCount scenario_key + 1)
                                    scenario_key]>
         (APIKeys (data scenario_store))).
Proof.
  apply (EndRequest_used_count "mj3gc-secret" scenario_store scenario_key).
  - reflexivity.
  - apply in_int64_small; simpl; lia.
Defined.

(** [C3], as stated, fails where the counter holds the largest [int64]:
    the increment wraps to the smallest one. *)
Lemma EndRequest_used_count_wraps :
  Store_typed saturated_store ∧
  FindAPIKey "mj3gc-worn" saturated_store = Some saturated_key ∧
  APIKey.UsedCount saturated_key = 9223372036854775807 ∧
  APIKey.UsedCount <$>
    APIKeys (data (EndRequest "mj3gc-worn" true saturated_store)) =
    [-9223372036854775808] ∧
  -9223372036854775808 ≠ APIKey.UsedCount saturated_key + 1.
Proof.
  split_and!; [|reflexivity|reflexivity|reflexivity|by vm_compute].
  split_and!.
  - apply in_int64_small; simpl; lia.
  - intros k ->%list_elem_of_singleton. unfold APIKey_typed, in_int64. simpl.
    unfold int64_min, int64_max. lia.
  - intros id. simpl. rewrite inflight_get_empty. apply in_int64_small; lia.
Qed.



(** ** The concurrency ceiling *)


Lemma inflight_get_insert (fl : Inflight) id id' n :
  inflight_get (<[id' := n]> fl) id =
  if bool_decide (id' = id) then n else inflight_get fl id.
Proof.
  unfold inflight_get. case_bool_decide as H.
  - subst. by rewrite lookup_insert_eq.
  - by rewrite lookup_insert_ne.
Qed.

Lemma same_ceilings_refl ks : same_ceilings ks ks.
Proof. intros k Hk. by exists k. Qed.



Lemma charge_ID count key : APIKey.ID (charge count key) = APIKey.ID key.
Proof. by destruct count. Qed.

Lemma charge_ConcurrencyLimit count key :
  APIKey.ConcurrencyLimit (charge count key) = APIKey.ConcurrencyLimit key.
Proof. by destruct count. Qed.

Lemma same_ceilings_charge ks i count key :
  ks !! i = Some key → same_ceilings ks (<[i := charge count key]> ks).
Proof.
  intros Hi k (j & Hj)%list_elem_of_lookup.
  apply list_lookup_insert_Some in Hj as [(-> & <- & _)|(Hne & Hj)].
  - exists key. split_and!.
    + by eapply list_elem_of_lookup_2.
    + by rewrite charge_ID.
    + by rewrite charge_ConcurrencyLimit.
  - exists k. split_and!; [|done..]. by eapply list_elem_of_lookup_2.
Qed.

(** The operations on users and on the path leave keys and counter alone. *)
Lemma UpsertUser_keys user now rnd s :
  APIKeys (data (UpsertUser user now rnd s).2) = APIKeys (data s) ∧
  inflight (UpsertUser user now rnd s).2 = inflight s.
Proof.
  unfold UpsertUser.
  repeat (case_bool_decide || case_match || simpl); done.
Qed.

Lemma DeleteUser_keys id s :
  APIKeys (data (DeleteUser id s).2) = APIKeys (data s) ∧
  inflight (DeleteUser id s).2 = inflight s.
Proof.
  unfold DeleteUser.
  repeat (case_bool_decide || case_match || simpl); done.
Qed.

Lemma DeleteAPIKey_keys id s :
  same_ceilings (APIKeys (data s)) (APIKeys (data (DeleteAPIKey id s).2)) ∧
  inflight (DeleteAPIKey id s).2 = inflight s.
Proof.
  unfold DeleteAPIKey.
  case_bool_decide; [split; [apply same_ceilings_refl|done]|].
  case_match; simpl; (split; [|done]); [|apply same_ceilings_refl].
  intros k [_ Hk]%list_elem_of_filter. by exists k.
Qed.

Lemma BeginRequest_unresolved value s :
  FindAPIKey value s = None → BeginRequest value s = (Err ErrKeyNotFound, s).
Proof.
  unfold FindAPIKey, BeginRequest. case_bool_decide; [done|]. intros Hnone.
  rewrite (BeginRequest_loop_none _ _ _ Hnone). by rewrite store_eta.
Qed.

Lemma step_same_ceilings o s :
  admission_op o = true →
  same_ceilings (APIKeys (data s)) (APIKeys (data (step o s).1)).
Proof.
  destruct o as [value|value count| | id | user now rnd | id | p | ];
    simpl; try done; intros _.
  - destruct (FindAPIKey value s) as [key|] eqn:Hf.
    + rewrite (BeginRequest_resolved _ _ _ Hf). simpl.
      repeat (case_bool_decide || case_match || simplify_eq/=);
        apply same_ceilings_refl.
    + rewrite (BeginRequest_unresolved _ _ Hf). apply same_ceilings_refl.
  - destruct (FindAPIKey value s) as [key|] eqn:Hf.
    + destruct (EndRequest_resolved value count s key Hf) as (i & Hi & ->).
      simpl. by apply same_ceilings_charge.
    + rewrite (EndRequest_unresolved _ _ _ Hf). apply same_ceilings_refl.
  - apply DeleteAPIKey_keys.
  - destruct (UpsertUser_keys user now rnd s) as [-> _].
    apply same_ceilings_refl.
  - destruct (DeleteUser_keys id s) as [-> _]. apply same_ceilings_refl.
  - apply same_ceilings_refl.
Qed.

Lemma UpsertAPIKey_inflight key now rnd s :
  inflight (UpsertAPIKey key now rnd s).2 = inflight s.
Proof.
  unfold UpsertAPIKey.
  repeat (case_bool_decide || case_match || simpl); done.
Qed.

Lemma Load_inflight unmarshal fault now fs s :
  inflight (Load unmarshal fault now fs s).2 = inflight s.
Proof.
  unfold Load.
  repeat (case_bool_decide || case_match || simpl); done.
Qed.


Lemma run_cons o ops s :
  run (o :: ops) s =
  ((run ops (step o s).1).1, (step o s).2 ++ (run ops (step o s).1).2).
Proof. simpl. destruct (step o s), (run ops _); done. Qed.

(** Every operation but [UpsertAPIKey] and [Load] keeps the ceilings. *)
Lemma admission_keeps_ceilings ops s :
  Forall (λ o, admission_op o = true) ops → keeps_ceilings ops s.
Proof.
  intros Hops. revert s.
  induction Hops as [|o ops Ho _ IH]; intros s; simpl; [done|].
  split; [by apply step_same_ceilings|apply IH].
Qed.







(** ** The access provider *)

Lemma FindAPIKey_nonempty value s key :
  FindAPIKey value s = Some key → value ≠ "".
Proof. intros (Hv & _)%FindAPIKey_Some ->. by apply Hv. Qed.

(** A key that is found but disabled is turned away before the source is
    looked at. *)
Lemma Authenticate_disabled name s r value source key :
  extractAPIKey r = (value, source) →
  FindAPIKey value s = Some key →
  APIKey.Enabled key = false →
  Authenticate name s r = inr ErrInvalidCredential.
Proof.
  intros Hx Hf He. unfold Authenticate. rewrite Hx.
  rewrite bool_decide_eq_false_2; [|by eapply FindAPIKey_nonempty].
  by rewrite Hf, He.
Qed.




(** The specification's example: the same credential in the [key] query
    parameter is rejected for the key without compatibility mode and
    accepted for the key with it. *)
Lemma query_key_trust :
  Authenticate "" scenario_store query_request = inr ErrInvalidCredential ∧
  accepts (Authenticate "" compat_store query_request) = true.
Proof. split; reflexivity. Qed.

(** The sources the provider's extractor can name. *)
Lemma extractAPIKey_sources r value source :
  extractAPIKey r = (value, source) →
  source ∈ ["authorization"; "x-api-key"; "x-goog-api-key"; "query-key";
            "query-auth-token"] ∨ (value = "" ∧ source = "").
Proof.
  unfold extractAPIKey.
  repeat (case_bool_decide || case_match); intros [= <- <-];
    try (right; done); left; set_solver.
Qed.

(** ** Credential extraction *)

(** Both extractors, on an [Authorization] header that is neither
    [Bearer] nor [Basic]: the raw header value, trimmed, from the source
    [authorization]. *)
Lemma extractKeyFromRequest_raw r :
  let ah := Header_Get (Header r) "Authorization" in
  ah ≠ "" → uses_bearer ah = false → uses_basic ah = false →
  extractKeyFromRequest r = (TrimSpace ah, "authorization").
Proof.
  intros ah Hne Hbearer Hbasic. unfold extractKeyFromRequest.
  fold ah. rewrite bool_decide_eq_true_2; [|done].
  unfold uses_bearer in Hbearer. unfold uses_basic in Hbasic.
  rewrite Hbasic. simpl.
  destruct (SplitN2 ah) as [|p0 [|p1 [|]]]; try done.
  by rewrite Hbearer.
Qed.

Lemma extractAPIKey_raw r :
  let ah := Header_Get (Header r) "Authorization" in
  ah ≠ "" → uses_bearer ah = false →
  extractAPIKey r = (TrimSpace ah, "authorization").
Proof.
  intros ah Hne Hbearer. unfold extractAPIKey.
  fold ah. rewrite bool_decide_eq_true_2; [|done].
  unfold uses_bearer in Hbearer.
  destruct (SplitN2 ah) as [|p0 [|p1 [|]]]; try done.
  by rewrite Hbearer.
Qed.

Lemma Header_Get_delete_Authorization h key :
  CanonicalMIMEHeaderKey key ≠ "Authorization" →
  Header_Get (delete "Authorization" h) key = Header_Get h key.
Proof.
  intros Hne. unfold Header_Get, Values_Get. by rewrite lookup_delete_ne.
Qed.

Lemma Header_Get_delete_eq h :
  Header_Get (delete "Authorization" h) "Authorization" = "".
Proof.
  unfold Header_Get, Values_Get.
  change (CanonicalMIMEHeaderKey "Authorization") with "Authorization".
  by rewrite lookup_delete_eq.
Qed.

Lemma lowerByte_space c : lowerByte c = " "%char → c = " "%char.
Proof.
  unfold lowerByte. case_bool_decide as Hc; [|done].
  intros Heq. apply (f_equal nat_of_ascii) in Heq.
  rewrite nat_ascii_embedding in Heq by lia.
  change (nat_of_ascii " ") with 32%nat in Heq. lia.
Qed.

Lemma lowerByte_not_space c x :
  lowerByte c = x → x ≠ " "%char → c ≠ " "%char.
Proof. intros Hc Hx ->. by apply Hx. Qed.

(** A header of the [Basic] scheme is not one of the [Bearer] scheme. *)
Lemma basic_not_bearer ah : uses_basic ah = true → uses_bearer ah = false.
Proof.
  unfold uses_basic, uses_bearer, SplitN2.
  destruct ah as [|c1 [|c2 [|c3 [|c4 [|c5 [|c6 rest]]]]]];
    cbn [ToLower HasPrefix]; try done;
    rewrite ?andb_false_r; try done.
  rewrite !andb_true_iff, !bool_decide_eq_true.
  intros (H1 & H2 & H3 & H4 & H5 & H6 & _).
  apply lowerByte_space in H6. subst c6.
  cbn [cut].
  rewrite !bool_decide_eq_false_2
    by (eapply lowerByte_not_space; [eassumption|discriminate]).
  rewrite bool_decide_eq_true_2 by done.
  unfold EqualFold. cbn [ToLower]. rewrite H1, H2, H3, H4, H5.
  by apply bool_decide_eq_false_2.
Qed.

(** The portal's extractor passes over an [Authorization] header that
    uses the [Basic] scheme: it answers as it does for the request
    without that header. *)
Lemma extractKeyFromRequest_basic r :
  let ah := Header_Get (Header r) "Authorization" in
  uses_basic ah = true →
  extractKeyFromRequest r =
    extractKeyFromRequest (mkRequest (delete "Authorization" (Header r)) (URL r)).
Proof.
  intros ah Hbasic. pose proof (basic_not_bearer ah Hbasic) as Hbearer.
  unfold extractKeyFromRequest. simpl.
  fold ah. rewrite Header_Get_delete_eq.
  rewrite !Header_Get_delete_Authorization by (vm_compute; discriminate).
  unfold uses_bearer in Hbearer. unfold uses_basic in Hbasic.
  rewrite Hbasic. simpl.
  case_bool_decide as Hne; [|done].
  destruct (SplitN2 ah) as [|p0 [|p1 [|]]]; try done.
  by rewrite Hbearer.
Qed.

(** [C5] The access provider's extractor on a request that carries Basic
    credentials in [Authorization] and the API key in [X-Api-Key]: it
    returns the Basic header itself as the credential, from the source
    [authorization], where the portal's extractor passes over the header
    and returns the API key; the provider then rejects the request the
    portal authenticates. *)
Theorem extractAPIKey_basic_header :
  uses_basic (Header_Get (Header basic_request) "Authorization") = true ∧
  extractAPIKey basic_request = ("Basic dXNlcjpwYXNz", "authorization") ∧
  extractKeyFromRequest basic_request = ("mj3gc-secret", "x-api-key") ∧
  Authenticate "" scenario_store basic_request = inr ErrInvalidCredential ∧
  authenticateAPIKey scenario_store basic_request = Some scenario_key.
Proof. split_and!; reflexivity. Qed.

(** The specification's precedence example. *)
Lemma bearer_before_x_api_key :
  let r := mkRequest {[ "Authorization" := ["Bearer T1"];
                        "X-Api-Key" := ["T2"] ]} None in
  extractKeyFromRequest r = ("T1", "authorization") ∧
  extractAPIKey r = ("T1", "authorization").
Proof. split; reflexivity. Qed.

(** ** Uniqueness of the credential string *)

Lemma existsb_elem_of {A} (f : A → bool) (l : list A) x :
  x ∈ l → f x = true → existsb f l = true.
Proof.
  intros Hx Hf. apply existsb_exists. exists x. split; [|done].
  by apply list_elem_of_In.
Qed.




(** ** Snapshots *)

Lemma Snapshot_fields s :
  Version (Snapshot s) = Version (data s) ∧
  Users (Snapshot s) = Users (data s) ∧
  APIKeys (Snapshot s) = APIKeys (data s) ∧
  UpdatedAt (Snapshot s) = Time_zero.
Proof. done. Qed.

(** ** [Load] *)

Lemma Load_absent unmarshal now fs s :
  Path s ≠ "" → fs !! Path s = None →
  Load unmarshal None now fs s = (None, with_data (mkData 1 now [] []) s).
Proof.
  intros Hp Hfs. unfold Load, os_ReadFile.
  rewrite bool_decide_eq_false_2; [|done]. by rewrite Hfs.
Qed.

Lemma Load_present unmarshal now fs s raw d :
  Path s ≠ "" → fs !! Path s = Some raw → unmarshal raw = Ok d →
  Load unmarshal None now fs s =
    (None,
     with_data (mkData (if bool_decide (Version d = 0) then 1 else Version d)
                       (UpdatedAt d) (Users d) (APIKeys d)) s).
Proof.
  intros Hp Hfs Hd. unfold Load, os_ReadFile.
  rewrite bool_decide_eq_false_2; [|done]. rewrite Hfs, Hd.
  case_bool_decide; [done|]. by rewrite data_eta.
Qed.

(** [C7] On a store with a configured backing path: when the file is
    absent, [Load] succeeds with the empty Record Set at version 1; when
    the file decodes, [Load] succeeds with the decoded Record Set, a
    version 0 (what a document without a version decodes to) replaced by
    1; and after every successful [Load] the version is not 0, and it is
    at least 1 unless the file holds a negative version. *)
Theorem Load_version
    (unmarshal : string → result Data) (now : Time) (fs : FS) (s : Store) :
  Path s ≠ "" →
  (fs !! Path s = None →
     Load unmarshal None now fs s =
       (None, with_data (mkData 1 now [] []) s)) ∧
  (∀ raw d, fs !! Path s = Some raw → unmarshal raw = Ok d →
     Load unmarshal None now fs s =
       (None,
        with_data (mkData (if bool_decide (Version d = 0) then 1 else Version d)
                          (UpdatedAt d) (Users d) (APIKeys d)) s)) ∧
  (∀ fault s', Load unmarshal fault now fs s = (None, s') →
     Version (data s') ≠ 0 ∧
     ((∀ raw d, fs !! Path s = Some raw → unmarshal raw = Ok d →
         0 ≤ Version d) →
      1 ≤ Version (data s'))).
Proof.
  intros Hp. split_and!.
  - by apply Load_absent.
  - intros raw d. by apply Load_present.
  - intros fault s'. unfold Load, os_ReadFile.
    rewrite bool_decide_eq_false_2; [|done].
    destruct fault as [e|].
    + destruct (os_IsNotExist e); [|done]. intros [= <-]. simpl.
      split; [done|lia].
    + destruct (fs !! Path s) as [raw|] eqn:Hfs; simpl.
      * destruct (unmarshal raw) as [d|e] eqn:Hd; [|done].
        intros [= <-]. case_bool_decide as Hv; simpl.
        -- split; [done|lia].
        -- split; [done|]. intros Hnn. specialize (Hnn raw d eq_refl Hd). lia.
      * intros [= <-]. simpl. split; [done|lia].
Qed.

Lemma Load_version_witness :
  Load (doc_Unmarshal scenario_docs) None 9 ∅ scenario_store =
    (None, with_data (mkData 1 9 [] []) scenario_store).
Proof.
  destruct (Load_version (doc_Unmarshal scenario_docs) 9 ∅ scenario_store)
    as [Habsent _].
  - simpl. discriminate.
  - apply Habsent. apply lookup_empty.
Defined.

(** [C7], as stated, fails on a file that holds a negative version: the
    load succeeds and the version in memory is that negative number. *)
Lemma Load_keeps_negative_version :
  let fs : FS := {[ data_path := negative_text ]} in
  let s := SetPath data_path NewStore in
  ∃ s', Load (doc_Unmarshal negative_docs) None 9 fs s = (None, s') ∧
        Version (data s') = -1 ∧ ¬ 1 ≤ Version (data s').
Proof.
  eexists. split_and!; [reflexivity|reflexivity|simpl; lia].
Qed.

(** ** [Save] *)

Lemma Save_success marshal io now fs s fs' :
  Save marshal io now fs s = (None, fs') →
  Path s ≠ "" ∧
  ∃ payload, marshal (stamped s now) = Ok payload ∧
    fs' = delete (tmp_name io)
            (<[Path s := payload]>
               (delete (tmp_name io)
                  (<[tmp_name io := payload]> (<[tmp_name io := ""]> fs)))).
Proof.
  unfold Save. case_bool_decide as Hp; [done|]. simpl.
  change (mkData (Version (data s)) now (Users (data s)) (APIKeys (data s)))
    with (stamped s now).
  destruct (marshal (stamped s now)) as [payload|e]; [|done].
  destruct (mkdir_err io); [done|]. destruct (create_err io); [done|].
  destruct (write_err io); [done|]. destruct (close_err io); [done|].
  destruct (rename_err io); [done|].
  intros [= <-]. split; [done|]. by exists payload.
Qed.

(** A successful [Save] leaves the payload at the backing path and no
    temporary file behind. *)
Lemma Save_commits marshal io now fs s fs' :
  Save marshal io now fs s = (None, fs') →
  tmp_name io ≠ Path s →
  ∃ payload, marshal (stamped s now) = Ok payload ∧
             fs' !! Path s = Some payload ∧ fs' !! tmp_name io = None.
Proof.
  intros (Hp & payload & Hm & ->)%Save_success Htmp.
  exists payload. split_and!; [done| |].
  - rewrite lookup_delete_ne, lookup_insert_eq; done.
  - by rewrite lookup_delete_eq.
Qed.


(** [C9] [Save] on a store whose path was configured as [p], followed by
    [Load] on a fresh store configured with the same [p]: the load
    succeeds, with the users and the API keys of the saved store, with
    [updated_at] the time stamped at [Save], and with the version of the
    saved store unless that version is 0 (a store that was never loaded),
    which comes back as 1. The JSON decoder is taken to read back what the
    encoder printed for this Record Set, and the temporary file to have
    another name than the backing file. *)
Theorem Save_Load_roundtrip
    (marshal : Data → result string) (unmarshal : string → result Data)
    (io : SaveIO) (now now' : Time) (fs fs' : FS) (p : string) (s : Store) :
  Path s = TrimSpace p →
  Save marshal io now fs s = (None, fs') →
  tmp_name io ≠ Path s →
  (∀ payload, marshal (stamped s now) = Ok payload →
              unmarshal payload = Ok (stamped s now)) →
  ∃ s', Load unmarshal None now' fs' (SetPath p NewStore) = (None, s') ∧
    Users (data s') = Users (data s) ∧
    APIKeys (data s') = APIKeys (data s) ∧
    UpdatedAt (data s') = now ∧
    Version (data s') =
      (if bool_decide (Version (data s) = 0) then 1 else Version (data s)).
Proof.
  intros Hpath Hsave Htmp Hcodec.
  destruct (Save_success _ _ _ _ _ _ Hsave) as (Hp & _).
  destruct (Save_commits _ _ _ _ _ _ Hsave Htmp) as (payload & Hm & Hfs & _).
  eexists. split.
  - apply (Load_present unmarshal now' fs' (SetPath p NewStore) payload
             (stamped s now)).
    + simpl. by rewrite <- Hpath.
    + simpl. by rewrite <- Hpath.
    + by apply Hcodec.
  - done.
Qed.

Lemma scenario_save :
  Save (doc_MarshalIndent scenario_docs) (quiet "/data/mj3gc-42.json") 7 ∅
       scenario_store =
    (None, {[ data_path := "scenario.json" ]}).
Proof. by vm_compute. Qed.

Lemma Save_Load_roundtrip_witness :
  ∃ s', Load (doc_Unmarshal scenario_docs) None 9
             {[ data_path := "scenario.json" ]}
             (SetPath data_path NewStore) = (None, s') ∧
    Users (data s') = Users (data scenario_store) ∧
    APIKeys (data s') = APIKeys (data scenario_store) ∧
    UpdatedAt (data s') = 7 ∧
    Version (data s') =
      (if bool_decide (Version (data scenario_store) = 0) then 1
       else Version (data scenario_store)).
Proof.
  apply (Save_Load_roundtrip (doc_MarshalIndent scenario_docs)
           (doc_Unmarshal scenario_docs) (quiet "/data/mj3gc-42.json")
           7 9 ∅ {[ data_path := "scenario.json" ]} data_path scenario_store).
  - reflexivity.
  - exact scenario_save.
  - simpl. discriminate.
  - intros payload [= <-]. reflexivity.
Defined.

(** [C9], as stated, fails for a store that was never loaded: its version
    0 is saved as it is and comes back from [Load] as 1. *)
Lemma roundtrip_changes_version_zero :
  let marshal := doc_MarshalIndent unloaded_docs in
  let unmarshal := doc_Unmarshal unloaded_docs in
  ∃ fs' s',
    Save marshal (quiet "/data/mj3gc-42.json") 7 ∅ unloaded_store =
      (None, fs') ∧
    Load unmarshal None 9 fs' (SetPath data_path NewStore) = (None, s') ∧
    Version (data unloaded_store) = 0 ∧
    Version (data s') = 1.
Proof.
  eexists _, _. split_and!; [by vm_compute|by vm_compute|done|done].
Qed.

(** [C8] [Snapshot] on a store whose Record Set was last updated at time 1:
    the version, the users and the API keys of the returned [Data] are
    those of the store, but its last-updated timestamp is the zero time,
    not the store's; the management handler that reports the snapshot's
    timestamp reports the zero time. *)
Theorem Snapshot_drops_UpdatedAt :
  UpdatedAt (data scenario_store) = 1 ∧
  UpdatedAt (Snapshot scenario_store) = Time_zero ∧
  UpdatedAt (Snapshot scenario_store) ≠ UpdatedAt (data scenario_store) ∧
  Version (Snapshot scenario_store) = Version (data scenario_store) ∧
  Users (Snapshot scenario_store) = Users (data scenario_store) ∧
  APIKeys (Snapshot scenario_store) = APIKeys (data scenario_store) ∧
  resp_updated_at (GetMJ3GCState scenario_store) = Time_zero.
Proof. split_and!; done. Qed.

(** ** Slices *)

Section slice_lemmas.
Context {A : Type}.
Implicit Types (h : gmap nat (list A)) (sl : Slice) (xs : list A).

Lemma backing_insert_ne h sl b xs :
  base sl ≠ Some b → backing (<[b := xs]> h) sl = backing h sl.
Proof.
  unfold backing. destruct (base sl) as [b'|]; [|done]. intros Hne.
  rewrite lookup_insert_ne; [done|]. congruence.
Qed.

Lemma backing_insert_eq h sl b xs :
  base sl = Some b → backing (<[b := xs]> h) sl = xs.
Proof. unfold backing. intros ->. by rewrite lookup_insert_eq. Qed.

Lemma slice_ok_insert_ne h sl b xs :
  base sl ≠ Some b → slice_ok h sl → slice_ok (<[b := xs]> h) sl.
Proof.
  intros Hne [Hlen Hdom]. split.
  - unfold cap. by rewrite backing_insert_ne.
  - destruct (base sl); [|done]. rewrite dom_insert. set_solver.
Qed.

Lemma slice_ok_fresh h sl :
  slice_ok h sl → base sl ≠ Some (fresh (dom h)).
Proof.
  intros [_ Hdom] Heq. rewrite Heq in Hdom. by apply is_fresh in Hdom.
Qed.

Lemma slice_ok_new h b xs n :
  (n ≤ length xs)%nat → slice_ok (<[b := xs]> h) (mkSlice (Some b) n).
Proof.
  intros Hn. split; simpl.
  - unfold cap. by rewrite backing_insert_eq.
  - rewrite dom_insert. set_solver.
Qed.

Lemma slice_step_refl h sl : slice_ok h sl → slice_step h sl h sl.
Proof. intros Hok. split; [done|]. intros sl2 Hok2 Hap. done. Qed.

Lemma slice_step_trans h1 sl1 h2 sl2 h3 sl3 :
  slice_step h1 sl1 h2 sl2 → slice_step h2 sl2 h3 sl3 →
  slice_step h1 sl1 h3 sl3.
Proof.
  intros [_ H12] [Hok3 H23]. split; [done|]. intros sl Hok Hap.
  destruct (H12 sl Hok Hap) as (Hb & Hok' & Hap').
  destruct (H23 sl Hok' Hap') as (Hb' & Hok'' & Hap'').
  split_and!; [congruence|done..].
Qed.

(** A write in place. *)
Lemma elems_write_elems h sl xs :
  slice_ok h sl → length xs = len sl → elems (write_elems h sl xs) sl = xs.
Proof.
  intros [Hlen _] Hxs. unfold elems, write_elems, cap in *.
  destruct (base sl) as [b|] eqn:Hb.
  - rewrite backing_insert_eq by done. rewrite <- Hxs.
    by rewrite take_app_length.
  - unfold backing in *. rewrite Hb in *. simpl in Hlen.
    assert (len sl = 0)%nat as Hz by lia. rewrite Hz in *.
    by destruct xs.
Qed.

Lemma slice_step_write h sl xs :
  slice_ok h sl → length xs = len sl →
  slice_step h sl (write_elems h sl xs) sl.
Proof.
  intros Hok Hxs. pose proof Hok as [Hlen Hdom]. unfold write_elems.
  destruct (base sl) as [b|] eqn:Hb; [|by apply slice_step_refl].
  split.
  - split.
    + unfold cap in *. rewrite backing_insert_eq by done.
      rewrite length_app, length_drop. lia.
    + rewrite Hb. rewrite dom_insert. set_solver.
  - intros sl2 Hok2 Hap.
    assert (base sl2 ≠ Some b) as Hne.
    { intros Heq. by apply (Hap b). }
    split_and!; [by apply backing_insert_ne|by apply slice_ok_insert_ne|done].
Qed.

(** A new array, taken by the slice or left as garbage. *)
Lemma slice_step_new h sl xs n :
  (n ≤ length xs)%nat →
  slice_step h sl (new_array h xs).2 (mkSlice (Some (new_array h xs).1) n).
Proof.
  intros Hn. unfold new_array. simpl. split; [by apply slice_ok_new|].
  intros sl2 Hok2 Hap. pose proof (slice_ok_fresh _ _ Hok2) as Hne.
  split_and!; [by apply backing_insert_ne|by apply slice_ok_insert_ne|].
  intros b Hb. simpl. congruence.
Qed.

Lemma slice_step_garbage h sl xs :
  slice_ok h sl → slice_step h sl (new_array h xs).2 sl.
Proof.
  intros Hok. unfold new_array. simpl.
  pose proof (slice_ok_fresh _ _ Hok) as Hne0.
  split; [by apply slice_ok_insert_ne|].
  intros sl2 Hok2 Hap. pose proof (slice_ok_fresh _ _ Hok2) as Hne.
  split_and!; [by apply backing_insert_ne|by apply slice_ok_insert_ne|done].
Qed.

Lemma slice_step_nil h sl : slice_step h sl h nil_slice.
Proof.
  split.
  - split; simpl; [lia|done].
  - intros sl2 Hok2 Hap. split_and!; [done..|]. intros b _. simpl. done.
Qed.

Lemma elems_new h xs ys :
  elems (new_array h (xs ++ ys)).2
        (mkSlice (Some (new_array h (xs ++ ys)).1) (length xs)) = xs.
Proof.
  unfold elems, new_array. simpl. rewrite backing_insert_eq by done.
  by rewrite take_app_length.
Qed.

(** [append]. *)
Lemma elems_append1 zero spare h sl x :
  slice_ok h sl →
  elems (append1 zero spare h sl x).2 (append1 zero spare h sl x).1 =
    elems h sl ++ [x].
Proof.
  intros [Hlen Hdom]. unfold append1. case_bool_decide as Hroom; simpl.
  - unfold elems, cap in *. simpl.
    destruct (base sl) as [b|] eqn:Hb.
    + rewrite backing_insert_eq by done.
      rewrite (take_S_r _ _ x); [|by apply list_lookup_insert_eq].
      by rewrite take_insert_ge by lia.
    + unfold backing in Hroom. rewrite Hb in Hroom. simpl in Hroom. lia.
  - assert (length (elems h sl) = len sl) as Hl.
    { unfold elems. rewrite length_take. unfold cap in Hlen. lia. }
    unfold elems at 1. simpl. rewrite backing_insert_eq by done.
    rewrite <- Hl at 1.
    rewrite (cons_middle x), (assoc (++)).
    rewrite take_app_length'; [done|]. rewrite length_app. simpl. lia.
Qed.

Lemma slice_step_append1 zero spare h sl x :
  slice_ok h sl →
  slice_step h sl (append1 zero spare h sl x).2 (append1 zero spare h sl x).1.
Proof.
  intros Hok. pose proof Hok as [Hlen Hdom].
  unfold append1. case_bool_decide as Hroom; simpl.
  - destruct (base sl) as [b|] eqn:Hb.
    + split.
      * split; simpl.
        -- unfold cap in *. rewrite backing_insert_eq by done.
           rewrite length_insert. lia.
        -- rewrite dom_insert. set_solver.
      * intros sl2 Hok2 Hap.
        assert (base sl2 ≠ Some b) as Hne.
        { intros Heq. by apply (Hap b). }
        split_and!;
          [by apply backing_insert_ne|by apply slice_ok_insert_ne|].
        intros b' Hb'. simpl. congruence.
    + unfold cap, backing in Hroom. rewrite Hb in Hroom. simpl in Hroom. lia.
  - apply (slice_step_new h sl (elems h sl ++ x :: replicate spare zero)).
    rewrite length_app. simpl.
    unfold elems. rewrite length_take. unfold cap in Hlen. lia.
Qed.

(** [append([]T(nil), sl...)]: the copy has the elements of [sl], on an
    array of its own, and every slice reads as before. *)
Lemma clone_spec zero spare h sl :
  slice_ok h sl →
  elems (clone zero spare h sl).2 (clone zero spare h sl).1 = elems h sl ∧
  slice_ok (clone zero spare h sl).2 (clone zero spare h sl).1 ∧
  ∀ sl2, slice_ok h sl2 →
    backing (clone zero spare h sl).2 sl2 = backing h sl2 ∧
    slice_ok (clone zero spare h sl).2 sl2 ∧
    apart (clone zero spare h sl).1 sl2.
Proof.
  intros Hok. pose proof Hok as [Hlen Hdom]. unfold clone.
  case_bool_decide as Hz; simpl.
  - split_and!.
    + unfold elems. rewrite Hz. simpl. by rewrite take_0.
    + split; simpl; [lia|done].
    + intros sl2 Hok2. split_and!; [done..|]. intros b Hb. done.
  - assert (length (elems h sl) = len sl) as Hl.
    { unfold elems. rewrite length_take. unfold cap in Hlen. lia. }
    split_and!.
    + rewrite <- Hl at 1. apply elems_new.
    + apply slice_ok_new. rewrite length_app. lia.
    + intros sl2 Hok2. pose proof (slice_ok_fresh _ _ Hok2) as Hne.
      split_and!;
        [by apply backing_insert_ne|by apply slice_ok_insert_ne|].
      intros b [= <-]. done.
Qed.

Lemma build_spec zero spare h sl xs :
  elems (build zero spare h xs).2 (build zero spare h xs).1 = xs ∧
  slice_step h sl (build zero spare h xs).2 (build zero spare h xs).1.
Proof.
  unfold build. split.
  - apply elems_new.
  - apply (slice_step_new h sl (xs ++ replicate spare zero)).
    rewrite length_app. lia.
Qed.
End slice_lemmas.

(** ** The store in memory refines the store on values *)

Lemma store_ext s1 s2 :
  path s1 = path s2 → Version (data s1) = Version (data s2) →
  UpdatedAt (data s1) = UpdatedAt (data s2) →
  Users (data s1) = Users (data s2) → APIKeys (data s1) = APIKeys (data s2) →
  inflight s1 = inflight s2 → s1 = s2.
Proof.
  destruct s1 as [p1 [v1 u1 us1 ks1] f1], s2 as [p2 [v2 u2 us2 ks2] f2].
  simpl. by intros -> -> -> -> -> ->.
Qed.

Lemma length_elems {A} (h : gmap nat (list A)) sl :
  slice_ok h sl → length (elems h sl) = len sl.
Proof.
  intros [Hlen _]. unfold elems, cap in *. rewrite length_take. lia.
Qed.

Lemma EndRequest_frame value count s :
  path (EndRequest value count s) = path s ∧
  Version (data (EndRequest value count s)) = Version (data s) ∧
  UpdatedAt (data (EndRequest value count s)) = UpdatedAt (data s) ∧
  Users (data (EndRequest value count s)) = Users (data s) ∧
  length (APIKeys (data (EndRequest value count s))) =
    length (APIKeys (data s)).
Proof.
  destruct (FindAPIKey value s) as [key|] eqn:Hf.
  - destruct (EndRequest_resolved value count s key Hf) as (i & Hi & ->).
    simpl. split_and!; [done..|]. by rewrite length_insert.
  - by rewrite (EndRequest_unresolved _ _ _ Hf).
Qed.

Lemma BeginRequest_frame value s :
  path (BeginRequest value s).2 = path s ∧
  data (BeginRequest value s).2 = data s.
Proof.
  unfold BeginRequest. case_bool_decide; [done|].
  by destruct (BeginRequest_loop _ _ _).
Qed.

Lemma replaceKey_length ks key ks' :
  replaceKey ks key = Some ks' → length ks' = length ks.
Proof.
  revert ks'. induction ks as [|k ks IH]; intros ks'; simpl; [done|].
  case_bool_decide; [by intros [= <-]|].
  destruct (replaceKey ks key) as [r|]; [|done].
  intros [= <-]. simpl. by rewrite (IH r).
Qed.

Lemma replaceUser_length us user us' :
  replaceUser us user = Some us' → length us' = length us.
Proof.
  revert us'. induction us as [|u us IH]; intros us'; simpl; [done|].
  case_bool_decide; [by intros [= <-]|].
  destruct (replaceUser us user) as [r|]; [|done].
  intros [= <-]. simpl. by rewrite (IH r).
Qed.

Lemma h_EndRequest_refines value count m hs :
  store_ok m hs →
  Store_of (h_EndRequest value count m hs).1 (h_EndRequest value count m hs).2 =
    EndRequest value count (Store_of m hs).
Proof.
  intros [_ Hk].
  destruct (EndRequest_frame value count (Store_of m hs))
    as (Hp & Hv & Hu & Hus & Hlen).
  apply store_ext; simpl; try done.
  apply elems_write_elems; [done|].
  rewrite Hlen. simpl. by apply length_elems.
Qed.

Lemma h_BeginRequest_refines value m hs :
  Store_of (h_BeginRequest value m hs).1 (h_BeginRequest value m hs).2 =
    (BeginRequest value (Store_of m hs)).2.
Proof.
  destruct (BeginRequest_frame value (Store_of m hs)) as (Hp & Hd).
  apply store_ext; simpl; try done; by rewrite Hd.
Qed.

Lemma h_DeleteAPIKey_refines id m hs :
  store_ok m hs →
  Store_of (h_DeleteAPIKey id m hs).1 (h_DeleteAPIKey id m hs).2 =
    (DeleteAPIKey id (Store_of m hs)).2.
Proof.
  intros [Hu Hk]. unfold h_DeleteAPIKey, DeleteAPIKey. simpl.
  case_bool_decide; [done|].
  set (ks := elems (key_arrays m) (hAPIKeys (hdata hs))).
  set (out := filter (λ k, APIKey.ID k ≠ id) ks).
  destruct (existsb _ ks) eqn:E; simpl.
  - apply store_ext; simpl; try done.
    apply (elems_new (key_arrays m) out).
  - apply store_ext; simpl; try done.
    unfold elems. rewrite backing_insert_ne; [done|].
    by apply slice_ok_fresh.
Qed.

Lemma h_DeleteUser_refines id m hs :
  store_ok m hs →
  Store_of (h_DeleteUser id m hs).1 (h_DeleteUser id m hs).2 =
    (DeleteUser id (Store_of m hs)).2.
Proof.
  intros [Hu Hk]. unfold h_DeleteUser, DeleteUser. simpl.
  case_bool_decide; [done|].
  set (us := elems (user_arrays m) (hUsers (hdata hs))).
  set (out := filter (λ u, User.ID u ≠ id) us).
  destruct (existsb _ us) eqn:E; simpl.
  - apply store_ext; simpl; try done.
    apply (elems_new (user_arrays m) out).
  - apply store_ext; simpl; try done.
    unfold elems. rewrite backing_insert_ne; [done|].
    by apply slice_ok_fresh.
Qed.

Lemma h_UpsertAPIKey_refines key now rnd spare m hs :
  store_ok m hs →
  Store_of (h_UpsertAPIKey key now rnd spare m hs).1
           (h_UpsertAPIKey key now rnd spare m hs).2 =
    (UpsertAPIKey key now rnd (Store_of m hs)).2.
Proof.
  intros [Hu Hk]. unfold h_UpsertAPIKey, UpsertAPIKey. simpl.
  case_bool_decide; [done|].
  set (key1 := if IsZero (APIKey.CreatedAt key)
               then APIKey.with_CreatedAt now key else key).
  destruct (existsb _ _); [done|].
  case_bool_decide.
  - pose proof (elems_append1 APIKey_zero spare (key_arrays m)
                  (hAPIKeys (hdata hs))
                  (APIKey.with_ID (newID "key" rnd) key1) Hk) as Happ.
    destruct (append1 _ _ _ _ _) as [sl' ka]. simpl in *.
    by apply store_ext.
  - destruct (replaceKey _ key1) as [ks'|] eqn:E; simpl.
    + apply store_ext; simpl; try done.
      apply elems_write_elems; [done|].
      rewrite (replaceKey_length _ _ _ E). by apply length_elems.
    + pose proof (elems_append1 APIKey_zero spare (key_arrays m)
                    (hAPIKeys (hdata hs)) key1 Hk) as Happ.
      destruct (append1 _ _ _ _ _) as [sl' ka]. simpl in *.
      by apply store_ext.
Qed.

Lemma h_UpsertUser_refines user now rnd spare m hs :
  store_ok m hs →
  Store_of (h_UpsertUser user now rnd spare m hs).1
           (h_UpsertUser user now rnd spare m hs).2 =
    (UpsertUser user now rnd (Store_of m hs)).2.
Proof.
  intros [Hu Hk]. unfold h_UpsertUser, UpsertUser. simpl.
  case_bool_decide; [done|].
  set (user1 := if bool_decide (User.Role user = "")
                then User.with_Role roleUser user else user).
  destruct (bool_decide (User.Role user1 ≠ roleOwner)
            && bool_decide (User.Role user1 ≠ roleUser)); [done|].
  set (user2 := if IsZero (User.CreatedAt user1)
                then User.with_CreatedAt now user1 else user1).
  destruct (existsb _ _); [done|].
  case_bool_decide.
  - pose proof (elems_append1 User_zero spare (user_arrays m)
                  (hUsers (hdata hs))
                  (User.with_ID (newID "usr" rnd) user2) Hu) as Happ.
    destruct (append1 _ _ _ _ _) as [sl' ua]. simpl in *.
    by apply store_ext.
  - destruct (replaceUser _ user2) as [us'|] eqn:E; simpl.
    + apply store_ext; simpl; try done.
      apply elems_write_elems; [done|].
      rewrite (replaceUser_length _ _ _ E). by apply length_elems.
    + pose proof (elems_append1 User_zero spare (user_arrays m)
                    (hUsers (hdata hs)) user2 Hu) as Happ.
      destruct (append1 _ _ _ _ _) as [sl' ua]. simpl in *.
      by apply store_ext.
Qed.

Lemma h_Load_refines unmarshal fault now fs su sk m hs :
  Store_of (h_Load unmarshal fault now fs su sk m hs).1
           (h_Load unmarshal fault now fs su sk m hs).2 =
    (Load unmarshal fault now fs (Store_of m hs)).2.
Proof.
  unfold h_Load, Load. simpl.
  case_bool_decide; [done|].
  destruct (os_ReadFile fs fault (hpath hs)) as [raw|e].
  - destruct (unmarshal raw) as [d|e]; [|done].
    pose proof (elems_new (user_arrays m) (Users d)
                  (replicate su User_zero)) as Hus.
    pose proof (elems_new (key_arrays m) (APIKeys d)
                  (replicate sk APIKey_zero)) as Hks.
    unfold build. simpl in *.
    case_bool_decide; by apply store_ext.
  - destruct (os_IsNotExist e); [|done]. by apply store_ext.
Qed.

(** Every operation of the store in memory does to the Record Set and to
    the counter what the operation on values does. *)
Lemma h_step_refines o su sk m hs :
  store_ok m hs →
  Store_of (h_step o su sk m hs).1 (h_step o su sk m hs).2 =
    (step o (Store_of m hs)).1.
Proof.
  intros Hok.
  destruct o as [value|value count| key now rnd | id | user now rnd | id
                 | p | unmarshal fault now fs ]; simpl.
  - change (h_BeginRequest value m hs).1 with m.
    pose proof (h_BeginRequest_refines value m hs) as Hb.
    simpl in Hb. unfold h_BeginRequest. simpl. rewrite Hb.
    by destruct (BeginRequest value (Store_of m hs)) as [[?|?] ?].
  - by apply h_EndRequest_refines.
  - by apply h_UpsertAPIKey_refines.
  - by apply h_DeleteAPIKey_refines.
  - by apply h_UpsertUser_refines.
  - by apply h_DeleteUser_refines.
  - done.
  - apply h_Load_refines.
Qed.

(** ** What an operation of the store can touch in memory *)

Lemma h_step_slices o su sk m hs :
  store_ok m hs →
  slice_step (user_arrays m) (hUsers (hdata hs))
             (user_arrays (h_step o su sk m hs).1)
             (hUsers (hdata (h_step o su sk m hs).2)) ∧
  slice_step (key_arrays m) (hAPIKeys (hdata hs))
             (key_arrays (h_step o su sk m hs).1)
             (hAPIKeys (hdata (h_step o su sk m hs).2)).
Proof.
  intros [Hu Hk].
  pose proof (slice_step_refl _ _ Hu) as Hu0.
  pose proof (slice_step_refl _ _ Hk) as Hk0.
  destruct o as [value|value count| key now rnd | id | user now rnd | id
                 | p | unmarshal fault now fs ]; simpl; try done.
  - split; [done|]. apply slice_step_write; [done|].
    destruct (EndRequest_frame value count (Store_of m hs))
      as (_ & _ & _ & _ & ->).
    simpl. by apply length_elems.
  - unfold h_UpsertAPIKey. case_bool_decide; [done|].
    destruct (existsb _ _); [done|].
    case_bool_decide.
    + match goal with
      | |- context [append1 ?z ?sp ?h ?sl ?x] =>
          pose proof (slice_step_append1 z sp h sl x Hk) as Happ;
          destruct (append1 z sp h sl x) as [sl' ka]
      end. done.
    + destruct (replaceKey _ _) as [ks'|] eqn:E; simpl.
      * split; [done|]. apply slice_step_write; [done|].
        rewrite (replaceKey_length _ _ _ E). by apply length_elems.
      * match goal with
        | |- context [append1 ?z ?sp ?h ?sl ?x] =>
            pose proof (slice_step_append1 z sp h sl x Hk) as Happ;
            destruct (append1 z sp h sl x) as [sl' ka]
        end. done.
  - unfold h_DeleteAPIKey. case_bool_decide; [done|]. simpl.
    destruct (existsb _ _); simpl; (split; [done|]).
    + apply (slice_step_new (key_arrays m)). rewrite length_app. lia.
    + by apply (slice_step_garbage (key_arrays m)).
  - unfold h_UpsertUser. case_bool_decide; [done|].
    destruct (_ && _); [done|]. destruct (existsb _ _); [done|].
    case_bool_decide.
    + match goal with
      | |- context [append1 ?z ?sp ?h ?sl ?x] =>
          pose proof (slice_step_append1 z sp h sl x Hu) as Happ;
          destruct (append1 z sp h sl x) as [sl' ua]
      end. done.
    + destruct (replaceUser _ _) as [us'|] eqn:E; simpl.
      * split; [|done]. apply slice_step_write; [done|].
        rewrite (replaceUser_length _ _ _ E). by apply length_elems.
      * match goal with
        | |- context [append1 ?z ?sp ?h ?sl ?x] =>
            pose proof (slice_step_append1 z sp h sl x Hu) as Happ;
            destruct (append1 z sp h sl x) as [sl' ua]
        end. done.
  - unfold h_DeleteUser. case_bool_decide; [done|]. simpl.
    destruct (existsb _ _); simpl; (split; [|done]).
    + apply (slice_step_new (user_arrays m)). rewrite length_app. lia.
    + by apply (slice_step_garbage (user_arrays m)).
  - unfold h_Load. case_bool_decide; [done|].
    destruct (os_ReadFile _ _ _) as [raw|e].
    + destruct (unmarshal raw) as [d|e]; [|done].
      unfold build. simpl. split.
      * apply (slice_step_new (user_arrays m)). rewrite length_app. lia.
      * apply (slice_step_new (key_arrays m)). rewrite length_app. lia.
    + destruct (os_IsNotExist e); [|done]. simpl.
      split; apply slice_step_nil.
Qed.

Lemma h_step_ok o su sk m hs :
  store_ok m hs → store_ok (h_step o su sk m hs).1 (h_step o su sk m hs).2.
Proof.
  intros Hok. destruct (h_step_slices o su sk m hs Hok) as [[Hu _] [Hk _]].
  by split.
Qed.

(** A [Data] that shares no array with the store reads the same after
    an operation of the store, and still shares no array with it. *)
Lemma h_step_frame o su sk m hs d :
  store_ok m hs → data_ok m d → unshared d hs →
  Data_of (h_step o su sk m hs).1 d = Data_of m d ∧
  data_ok (h_step o su sk m hs).1 d ∧
  unshared d (h_step o su sk m hs).2.
Proof.
  intros Hok [Hdu Hdk] [Hau Hak].
  destruct (h_step_slices o su sk m hs Hok) as [[_ Hu] [_ Hk]].
  destruct (Hu _ Hdu Hau) as (Hbu & Hou & Hau').
  destruct (Hk _ Hdk Hak) as (Hbk & Hok' & Hak').
  split_and!; [|done|done].
  unfold Data_of, elems. by rewrite Hbu, Hbk.
Qed.

Lemma h_run_cons o su sk ops m hs :
  h_run ((o, su, sk) :: ops) m hs =
    h_run ops (h_step o su sk m hs).1 (h_step o su sk m hs).2.
Proof. simpl. by destruct (h_step o su sk m hs). Qed.

Lemma h_run_frame ops m hs d :
  store_ok m hs → data_ok m d → unshared d hs →
  Data_of (h_run ops m hs).1 d = Data_of m d.
Proof.
  revert m hs. induction ops as [|[[o su] sk] ops IH]; intros m hs Hok Hd Hun;
    [done|].
  rewrite h_run_cons.
  destruct (h_step_frame o su sk m hs d Hok Hd Hun) as (<- & Hd' & Hun').
  apply IH; [by apply h_step_ok|done..].
Qed.

Lemma h_run_refines ops m hs :
  store_ok m hs →
  Store_of (h_run ops m hs).1 (h_run ops m hs).2 =
    (run (ops.*1.*1) (Store_of m hs)).1.
Proof.
  revert m hs. induction ops as [|[[o su] sk] ops IH]; intros m hs Hok; [done|].
  rewrite h_run_cons.
  change ((((o, su, sk) :: ops).*1).*1) with (o :: ops.*1.*1).
  rewrite run_cons. cbn [fst].
  rewrite <- (h_step_refines o su sk m hs Hok).
  apply IH. by apply h_step_ok.
Qed.

(** [Snapshot] returns the Record Set of the store without its
    timestamp, on arrays of its own: the store reads as before, and
    whatever the store does afterwards, the returned [Data] reads the
    same. *)
Lemma h_Snapshot_fresh su sk m hs ops :
  store_ok m hs →
  let d := (h_Snapshot su sk m hs).1 in
  let m1 := (h_Snapshot su sk m hs).2 in
  Data_of m1 d = Snapshot (Store_of m hs) ∧
  Store_of m1 hs = Store_of m hs ∧
  unshared d hs ∧
  Data_of (h_run ops m1 hs).1 d = Data_of m1 d.
Proof.
  intros [Hu Hk]. unfold h_Snapshot, h_snapshotLocked.
  destruct (clone_spec User_zero su (user_arrays m) (hUsers (hdata hs)) Hu)
    as (Heu & Hcu & Hfu).
  destruct (clone_spec APIKey_zero sk (key_arrays m) (hAPIKeys (hdata hs)) Hk)
    as (Hek & Hck & Hfk).
  destruct (Hfu _ Hu) as (Hbu & Hu' & Hau).
  destruct (Hfk _ Hk) as (Hbk & Hk' & Hak).
  destruct (clone User_zero _ _ _) as [us ua].
  destruct (clone APIKey_zero _ _ _) as [ks ka]. simpl in *.
  assert (Data_of (mkMem ua ka) (mkHData (hVersion (hdata hs)) Time_zero us ks)
          = Snapshot (Store_of m hs)) as Hsnap.
  { unfold Data_of, Snapshot, snapshotLocked. simpl. by rewrite Heu, Hek. }
  split_and!.
  - done.
  - unfold Store_of, Data_of, elems. simpl. by rewrite Hbu, Hbk.
  - done.
  - apply h_run_frame; done.
Qed.

Lemma scenario_hstore_ok :
  store_ok scenario_mem scenario_hstore ∧
  Store_of scenario_mem scenario_hstore = scenario_store.
Proof.
  split; [|reflexivity]. split; split; simpl; done.
Qed.

(** On the scenario: after a snapshot and the completion of a request,
    the store's own header reads the key with its usage at 3, and the
    snapshot still reads it at 2. *)
Lemma snapshot_keeps_usage :
  let snap := h_Snapshot 0 0 scenario_mem scenario_hstore in
  let after := h_EndRequest "mj3gc-secret" true snap.2 scenario_hstore in
  APIKey.UsedCount <$> APIKeys (Data_of after.1 (hdata after.2)) = [3] ∧
  APIKey.UsedCount <$> APIKeys (Data_of after.1 snap.1) = [2].
Proof. split; by vm_compute. Qed.

(** * Further properties of the code *)

(** ** [TrimSpace] *)

Lemma trimRight_idem s : trimRight (trimRight s) = trimRight s.
Proof.
  induction s as [|c r IH]; simpl; [done|].
  destruct (trimRight r) as [|d r'] eqn:E.
  - destruct (isSpace c) eqn:Ec; simpl; [done|]. by rewrite Ec.
  - simpl in *. by rewrite IH.
Qed.

Lemma trimRight_head c r :
  isSpace c = false → ∃ r', trimRight (String c r) = String c r'.
Proof.
  intros Hc. simpl. destruct (trimRight r) as [|d r'].
  - rewrite Hc. by eexists.
  - by eexists.
Qed.

Lemma trimLeft_head s :
  trimLeft s = EmptyString ∨
  ∃ c r, trimLeft s = String c r ∧ isSpace c = false.
Proof.
  induction s as [|c r IH]; simpl; [by left|].
  destruct (isSpace c) eqn:Ec; [done|]. right. by exists c, r.
Qed.

Lemma TrimSpace_idem s : TrimSpace (TrimSpace s) = TrimSpace s.
Proof.
  unfold TrimSpace. destruct (trimLeft_head s) as [->|(c & r & -> & Hc)].
  - done.
  - destruct (trimRight_head c r Hc) as [r' Hr]. rewrite Hr.
    simpl trimLeft. rewrite Hc. rewrite <- Hr. apply trimRight_idem.
Qed.

(** ** The two extractors *)




(** ** From the access provider to the portal and to admission *)

Lemma FindAPIKey_again value s key :
  FindAPIKey value s = Some key → FindAPIKey (APIKey.Key key) s = Some key.
Proof.
  intros Hf. pose proof (FindAPIKey_Some _ _ _ Hf) as (Hne & _ & Hkey).
  unfold FindAPIKey in *. rewrite Hkey, TrimSpace_idem. done.
Qed.

Lemma Authenticate_accepted name s r res :
  Authenticate name s r = inl res →
  ∃ value source key,
    extractAPIKey r = (value, source) ∧ value ≠ "" ∧
    FindAPIKey value s = Some key ∧ APIKey.Enabled key = true ∧
    trustRejects key source = false ∧ Principal res = APIKey.Key key.
Proof.
  unfold Authenticate. destruct (extractAPIKey r) as [value source].
  case_bool_decide as Hv; [done|].
  destruct (FindAPIKey value s) as [key|] eqn:Hf; [|done].
  destruct (APIKey.Enabled key) eqn:He; [|done]. simpl.
  destruct (trustRejects key source) eqn:Ht; [done|].
  intros [= <-]. by exists value, source, key.
Qed.



(** [X4] The principal of an accepted request resolves, in the same store, to
    an enabled key with that credential: [BeginRequest] on it admits the
    request or refuses it for quota or concurrency, never as unknown or
    disabled. *)
Theorem provider_principal_is_admissible
    (name : string) (s : Store) (r : Request) (res : AccessResult) :
  Authenticate name s r = inl res →
  ∃ key, FindAPIKey (Principal res) s = Some key ∧
         APIKey.Key key = Principal res ∧ APIKey.Enabled key = true ∧
         ((BeginRequest (Principal res) s).1 = Ok key ∨
          (BeginRequest (Principal res) s).1 = Err ErrQuotaExceeded ∨
          (BeginRequest (Principal res) s).1 = Err ErrConcurrencyExceeded).
Proof.
  intros (value & source & key & Hx & Hv & Hf & He & _ & Hp)%Authenticate_accepted.
  exists key. rewrite Hp. pose proof (FindAPIKey_again _ _ _ Hf) as Hf'.
  split_and!; [done..|].
  rewrite (BeginRequest_resolved _ _ _ Hf'). simpl.
  rewrite bool_decide_eq_false_2 by auto. rewrite He. simpl.
  destruct (_ && _); [by right; left|].
  case_bool_decide; [|by left].
  case_bool_decide; [by right; right|by left].
Qed.

Lemma provider_principal_is_admissible_witness :
  ∃ key, FindAPIKey "mj3gc-secret" scenario_store = Some key ∧
         APIKey.Key key = "mj3gc-secret" ∧ APIKey.Enabled key = true ∧
         ((BeginRequest "mj3gc-secret" scenario_store).1 = Ok key ∨
          (BeginRequest "mj3gc-secret" scenario_store).1 = Err ErrQuotaExceeded ∨
          (BeginRequest "mj3gc-secret" scenario_store).1 =
            Err ErrConcurrencyExceeded).
Proof.
  apply (provider_principal_is_admissible "" scenario_store raw_request
           (mkAccessResult "mj3gc-api-key" "mj3gc-secret"
              (<["label" := "demo"]> (<["user_id" := "usr_1"]> ∅)))).
  reflexivity.
Defined.

(** ** A request from [BeginRequest] to [EndRequest] *)

Lemma BeginRequest_Ok value s key s1 :
  BeginRequest value s = (Ok key, s1) →
  FindAPIKey value s = Some key ∧ APIKey.Enabled key = true ∧
  path s1 = path s ∧ data s1 = data s ∧
  inflight s1 =
    (if bool_decide (APIKey.ConcurrencyLimit key > 0)
     then <[APIKey.ID key :=
              wrap64 (inflight_get (inflight s) (APIKey.ID key) + 1)]>
            (inflight s)
     else inflight s) ∧
  (APIKey.ConcurrencyLimit key > 0 →
   inflight_get (inflight s) (APIKey.ID key) < APIKey.ConcurrencyLimit key).
Proof.
  destruct (FindAPIKey value s) as [key0|] eqn:Hf.
  - rewrite (BeginRequest_resolved _ _ _ Hf). simpl.
    rewrite bool_decide_eq_false_2 by auto.
    destruct (APIKey.Enabled key0) eqn:He; simpl; [|done].
    destruct (_ && _); [done|].
    case_bool_decide as Hlim.
    + case_bool_decide as Hcur; [done|]. intros [= <- <-]. simpl.
      rewrite bool_decide_eq_true_2 by done.
      split_and!; try done. intros _. lia.
    + intros [= <- <-]. simpl. rewrite bool_decide_eq_false_2 by done.
      split_and!; try done.
  - by rewrite (BeginRequest_unresolved _ _ Hf).
Qed.

Lemma BeginRequest_EndRequest_data value count s s1 key :
  BeginRequest value s = (Ok key, s1) →
  ∃ i, APIKeys (data s) !! i = Some key ∧
       EndRequest value count s1 =
         mkStore (path s1)
           (mkData (Version (data s)) (UpdatedAt (data s)) (Users (data s))
                   (<[i := charge count key]> (APIKeys (data s))))
           (release key (inflight s1)).
Proof.
  intros (Hf & He & Hp & Hd & Hfl1 & Hroom)%BeginRequest_Ok.
  assert (FindAPIKey value s1 = Some key) as Hf1.
  { unfold FindAPIKey in *. by rewrite Hd. }
  destruct (EndRequest_resolved value count s1 key Hf1) as (i & Hi & ->).
  rewrite Hd in *. by exists i.
Qed.

Lemma BeginRequest_release_inflight value s s1 key :
  Store_typed s → counts_nonneg s →
  BeginRequest value s = (Ok key, s1) →
  ∀ id, inflight_get (release key (inflight s1)) id =
        inflight_get (inflight s) id.
Proof.
  intros (_ & Hkeys & Hfl) Hnn (Hf & He & Hp & Hd & Hfl1 & Hroom)%BeginRequest_Ok.
  intros id. rewrite Hfl1. unfold release.
  pose proof (FindAPIKey_Some _ _ _ Hf) as (_ & Hin & _).
  destruct (Hkeys _ Hin) as (_ & _ & Hlim). specialize (Hfl (APIKey.ID key)).
  specialize (Hnn (APIKey.ID key)).
  case_bool_decide as Hc; [|done].
  specialize (Hroom Hc).
  rewrite (wrap64_id (_ + 1))
    by (unfold in_int64, int64_min, int64_max in *; lia).
  set (cur := inflight_get (inflight s) (APIKey.ID key)) in *.
  assert (inflight_get (<[APIKey.ID key := cur + 1]> (inflight s))
                       (APIKey.ID key) = cur + 1) as ->.
  { by rewrite inflight_get_insert, bool_decide_eq_true_2. }
  rewrite bool_decide_eq_true_2 by lia.
  rewrite !inflight_get_insert.
  case_bool_decide as Hid; [|done]. subst id.
  rewrite wrap64_id by (unfold in_int64, int64_min, int64_max in *; lia).
  fold cur. lia.
Qed.

(** [X5] A successful [BeginRequest] followed by the [EndRequest] of the same
    credential gives the slot back: every in-flight count reads as before
    the request. Of the Record Set only the admitted key can have
    changed, by the usage the call commits. *)
Theorem BeginRequest_EndRequest_releases
    (value : string) (count : bool) (s s1 : Store) (key : APIKey.t) :
  Store_typed s → counts_nonneg s →
  BeginRequest value s = (Ok key, s1) →
  (∀ id, inflight_get (inflight (EndRequest value count s1)) id =
         inflight_get (inflight s) id) ∧
  ∃ i, APIKeys (data s) !! i = Some key ∧
       data (EndRequest value count s1) =
         mkData (Version (data s)) (UpdatedAt (data s)) (Users (data s))
                (<[i := charge count key]> (APIKeys (data s))).
Proof.
  intros Ht Hnn E.
  destruct (BeginRequest_EndRequest_data value count s s1 key E)
    as (i & Hi & ->).
  simpl. split.
  - by apply (BeginRequest_release_inflight value).
  - by exists i.
Qed.

Lemma BeginRequest_EndRequest_releases_witness :
  (∀ id, inflight_get
           (inflight (EndRequest "mj3gc-secret" true
                        (BeginRequest "mj3gc-secret" scenario_store).2)) id =
         inflight_get (inflight scenario_store) id) ∧
  ∃ i, APIKeys (data scenario_store) !! i = Some scenario_key ∧
       data (EndRequest "mj3gc-secret" true
               (BeginRequest "mj3gc-secret" scenario_store).2) =
         mkData (Version (data scenario_store))
                (UpdatedAt (data scenario_store))
                (Users (data scenario_store))
                (<[i := charge true scenario_key]>
                   (APIKeys (data scenario_store))).
Proof.
  apply (BeginRequest_EndRequest_releases "mj3gc-secret" true scenario_store
           (BeginRequest "mj3gc-secret" scenario_store).2 scenario_key).
  - exact scenario_store_typed.
  - intros id. simpl. rewrite inflight_get_empty. lia.
  - reflexivity.
Defined.

(** ** The counter under every operation *)

Lemma BeginRequest_Err value s e s1 :
  BeginRequest value s = (Err e, s1) → s1 = s.
Proof.
  destruct (FindAPIKey value s) as [key|] eqn:Hf.
  - rewrite (BeginRequest_resolved _ _ _ Hf). simpl.
    rewrite bool_decide_eq_false_2 by auto.
    destruct (APIKey.Enabled key); simpl;
      [|intros [= _ <-]; by rewrite store_eta].
    destruct (_ && _); [intros [= _ <-]; by rewrite store_eta|].
    case_bool_decide; [|done].
    case_bool_decide; [|done]. intros [= _ <-]. by rewrite store_eta.
  - rewrite (BeginRequest_unresolved _ _ Hf). by intros [= _ <-].
Qed.

Lemma replaceKey_elem ks key ks' k :
  replaceKey ks key = Some ks' → k ∈ ks' → k ∈ ks ∨ k = key.
Proof.
  revert ks'. induction ks as [|k0 ks IH]; intros ks'; simpl; [done|].
  case_bool_decide.
  - intros [= <-] [->|Hin]%elem_of_cons; [by right|]. left. by right.
  - destruct (replaceKey ks key) as [r|]; [|done].
    intros [= <-] [->|Hin]%elem_of_cons; [left; by left|].
    destruct (IH r eq_refl Hin) as [?|?]; [left; by right|by right].
Qed.

Lemma UpsertAPIKey_elem key now rnd s k :
  k ∈ APIKeys (data (UpsertAPIKey key now rnd s).2) →
  k ∈ APIKeys (data s) ∨
  (APIKey.ConcurrencyLimit k = APIKey.ConcurrencyLimit key ∧
   APIKey.Key k = APIKey.Key key ∧
   APIKey.UsedCount k = APIKey.UsedCount key ∧
   APIKey.TotalLimit k = APIKey.TotalLimit key ∧
   APIKey.Enabled k = APIKey.Enabled key).
Proof.
  unfold UpsertAPIKey. case_bool_decide; [by left|].
  set (key1 := if IsZero (APIKey.CreatedAt key)
               then APIKey.with_CreatedAt now key else key).
  assert (APIKey.ConcurrencyLimit key1 = APIKey.ConcurrencyLimit key ∧
          APIKey.Key key1 = APIKey.Key key ∧
          APIKey.UsedCount key1 = APIKey.UsedCount key ∧
          APIKey.TotalLimit key1 = APIKey.TotalLimit key ∧
          APIKey.Enabled key1 = APIKey.Enabled key) as H1.
  { unfold key1. by destruct (IsZero _). }
  destruct (existsb _ _); [by left|].
  case_bool_decide.
  - simpl. intros [? | ->%list_elem_of_singleton]%elem_of_app; [by left|].
    by right.
  - destruct (replaceKey _ key1) as [ks'|] eqn:E; simpl.
    + intros Hin. destruct (replaceKey_elem _ _ _ _ E Hin) as [? | ->];
        [by left|by right].
    + intros [? | ->%list_elem_of_singleton]%elem_of_app; [by left|by right].
Qed.

Lemma step_limits_typed o s :
  op_typed o → limits_typed (APIKeys (data s)) →
  limits_typed (APIKeys (data (step o s).1)).
Proof.
  intros Ho Hs.
  destruct o as [value|value count| key now rnd | id | user now rnd | id
                 | p | unmarshal fault now fs ]; simpl in *.
  - destruct (BeginRequest value s) as [[key|e] s1] eqn:E; simpl.
    + apply BeginRequest_Ok in E as (_ & _ & _ & -> & _). done.
    + by apply BeginRequest_Err in E as ->.
  - intros k Hk.
    destruct (step_same_ceilings (OpEndRequest value count) s eq_refl k Hk)
      as (k0 & Hk0 & _ & <-). by apply Hs.
  - intros k [?|(-> & _)]%UpsertAPIKey_elem; [by apply Hs|done].
  - intros k Hk.
    destruct (step_same_ceilings (OpDeleteAPIKey id) s eq_refl k Hk)
      as (k0 & Hk0 & _ & <-). by apply Hs.
  - by destruct (UpsertUser_keys user now rnd s) as [-> _].
  - by destruct (DeleteUser_keys id s) as [-> _].
  - done.
  - unfold Load. case_bool_decide; [done|].
    destruct (os_ReadFile _ _ _) as [raw|e].
    + destruct (unmarshal raw) as [d|e] eqn:Hd; [|done]. simpl.
      case_bool_decide; simpl; by eapply Ho.
    + destruct (os_IsNotExist e); [|done]. simpl.
      intros k Hk. by apply elem_of_nil in Hk.
Qed.

Lemma step_counts_sound o s :
  limits_typed (APIKeys (data s)) → counts_sound s →
  counts_sound (step o s).1.
Proof.
  intros Hs Hc. unfold counts_sound in *.
  destruct o as [value|value count| key now rnd | id | user now rnd | id
                 | p | unmarshal fault now fs ]; simpl in *.
  - destruct (BeginRequest value s) as [[key|e] s1] eqn:E; simpl.
    + apply BeginRequest_Ok in E as (Hf & _ & _ & _ & -> & Hroom).
      apply FindAPIKey_Some in Hf as (_ & Hin & _).
      pose proof (Hs _ Hin) as Hlim. unfold in_int64 in Hlim.
      case_bool_decide as Hpos; [|done]. specialize (Hroom Hpos).
      intros id. rewrite inflight_get_insert.
      case_bool_decide; [|done].
      pose proof (Hc (APIKey.ID key)) as Hcur.
      rewrite wrap64_id by (unfold in_int64, int64_min, int64_max in *; lia).
      lia.
    + by apply BeginRequest_Err in E as ->.
  - destruct (FindAPIKey value s) as [key|] eqn:Hf.
    + destruct (EndRequest_resolved value count s key Hf) as (i & Hi & ->).
      simpl. unfold release. case_bool_decide; [|done].
      case_bool_decide as Hcur; [|done].
      intros id. rewrite inflight_get_insert.
      case_bool_decide; [|done].
      pose proof (Hc (APIKey.ID key)) as Hb.
      rewrite wrap64_id by (unfold in_int64, int64_min, int64_max in *; lia).
      lia.
    + by rewrite (EndRequest_unresolved _ _ _ Hf).
  - intros id'. by rewrite UpsertAPIKey_inflight.
  - intros id'. by destruct (DeleteAPIKey_keys id s) as [_ ->].
  - intros id'. by destruct (UpsertUser_keys user now rnd s) as [_ ->].
  - intros id'. by destruct (DeleteUser_keys id s) as [_ ->].
  - done.
  - intros id'. by rewrite Load_inflight.
Qed.

(** [X6] Whatever the store is asked to do (traffic, upserts and deletions of
    keys and users, loads), no in-flight count ever becomes negative or
    leaves the range of [int]: the release in [EndRequest] stops at zero
    and the reservation in [BeginRequest] stays under a limit. *)
Theorem counts_stay_sound (ops : list op) (s0 : Store) :
  Forall op_typed ops →
  limits_typed (APIKeys (data s0)) →
  counts_sound s0 →
  counts_sound (run ops s0).1.
Proof.
  intros Hops. revert s0.
  induction Hops as [|o ops Ho _ IH]; intros s0 Hs Hc; [done|].
  rewrite run_cons. simpl. apply IH.
  - by apply step_limits_typed.
  - by apply step_counts_sound.
Qed.

Lemma counts_stay_sound_witness :
  counts_sound (run (OpEndRequest "mj3gc-secret" false :: lowering_ops)
                    NewStore).1.
Proof.
  apply counts_stay_sound.
  - repeat constructor; simpl; apply in_int64_small; lia.
  - intros k Hk. by apply elem_of_nil in Hk.
  - intros id. simpl. rewrite inflight_get_empty.
    unfold int64_max. lia.
Defined.

(** ** The lifetime quota under traffic *)

Lemma find_key_intro (ks : list APIKey.t) i k v :
  ks !! i = Some k → APIKey.Key k = v →
  (∀ j k', (j < i)%nat → ks !! j = Some k' → APIKey.Key k' ≠ v) →
  List.find (λ k, bool_decide (APIKey.Key k = v)) ks = Some k.
Proof.
  revert i. induction ks as [|k0 ks IH]; intros i Hi Hv Hlt; [done|].
  destruct i as [|i]; simpl in *.
  - injection Hi as ->. by rewrite bool_decide_eq_true_2.
  - rewrite bool_decide_eq_false_2 by (apply (Hlt 0%nat); [lia|done]).
    apply (IH i); [done..|].
    intros j k' Hj Hk'. apply (Hlt (S j)); [lia|done].
Qed.

Lemma charge_Key count key : APIKey.Key (charge count key) = APIKey.Key key.
Proof. by destruct count. Qed.

(** [EndRequest] changes what a credential resolves to only by the usage
    it commits. *)
Lemma FindAPIKey_EndRequest v w count s key :
  FindAPIKey v s = Some key →
  FindAPIKey v (EndRequest w count s) = Some key ∨
  FindAPIKey v (EndRequest w count s) = Some (charge count key).
Proof.
  intros Hv. destruct (FindAPIKey w s) as [k0|] eqn:Hw.
  - destruct (EndRequest_resolved w count s k0 Hw) as (i0 & Hi0 & ->).
    unfold FindAPIKey in *. simpl.
    destruct (bool_decide (TrimSpace v = "")); [done|].
    apply find_key_spec in Hv as (i & Hi & Hk & Hlt).
    destruct (decide (i = i0)) as [->|Hii].
    + right. assert (k0 = key) as -> by congruence.
      apply (find_key_intro _ i0).
      * apply list_lookup_insert_eq. by eapply lookup_lt_Some.
      * by rewrite charge_Key.
      * intros j k' Hj Hk'. rewrite list_lookup_insert_ne in Hk' by lia.
        by eapply Hlt.
    + left. apply (find_key_intro _ i).
      * by rewrite list_lookup_insert_ne.
      * done.
      * intros j k' Hj Hk'.
        apply list_lookup_insert_Some in Hk' as [(-> & <- & _)|(_ & Hk')].
        -- rewrite charge_Key. by eapply Hlt.
        -- by eapply Hlt.
  - left. by rewrite (EndRequest_unresolved _ _ _ Hw).
Qed.

Lemma traffic_step_usage v L U0 n o s :
  traffic_op o = true →
  U0 + n < int64_max → int64_min ≤ U0 →
  (∃ key, FindAPIKey v s = Some key ∧ APIKey.Enabled key = true ∧
          APIKey.TotalLimit key = L ∧ U0 ≤ APIKey.UsedCount key ≤ U0 + n) →
  ∃ key, FindAPIKey v (step o s).1 = Some key ∧ APIKey.Enabled key = true ∧
         APIKey.TotalLimit key = L ∧ U0 ≤ APIKey.UsedCount key ≤ U0 + (n + 1).
Proof.
  intros Ho Hmax Hmin (key & Hf & He & HL & HU).
  destruct o as [value|value count| | | | | | ]; try done; simpl.
  - exists key. split_and!; try done; try lia.
    destruct (BeginRequest value s) as [[k|e] s1] eqn:E; simpl.
    + apply BeginRequest_Ok in E as (_ & _ & _ & Hd & _).
      unfold FindAPIKey in *. by rewrite Hd.
    + by apply BeginRequest_Err in E as ->.
  - destruct (FindAPIKey_EndRequest v value count s key Hf) as [Hk|Hk].
    + exists key. split_and!; try done; lia.
    + exists (charge count key). split; [done|].
      destruct count; simpl; [|split_and!; try done; lia].
      rewrite wrap64_id
        by (unfold in_int64, int64_min, int64_max in *; lia).
      split_and!; try done; lia.
Qed.

(** [X7] Once the usage of an enabled key has reached its lifetime limit,
    request traffic does not bring the key back: after any sequence of
    [BeginRequest] and [EndRequest] calls, for whatever credentials,
    [BeginRequest] for the key fails with [ErrQuotaExceeded] (as long as
    the usage counter cannot overflow within that sequence). *)
Theorem quota_exhausted_stays
    (ops : list op) (v : string) (s : Store) (key : APIKey.t) :
  Forall (λ o, traffic_op o = true) ops →
  FindAPIKey v s = Some key →
  APIKey.Enabled key = true →
  APIKey.TotalLimit key > 0 →
  APIKey.UsedCount key >= APIKey.TotalLimit key →
  APIKey.UsedCount key + Z.of_nat (length ops) ≤ int64_max →
  (BeginRequest v (run ops s).1).1 = Err ErrQuotaExceeded.
Proof.
  intros Hops Hf He HL HU Hmax.
  assert (∃ key', FindAPIKey v (run ops s).1 = Some key' ∧
                  APIKey.Enabled key' = true ∧
                  APIKey.TotalLimit key' = APIKey.TotalLimit key ∧
                  APIKey.UsedCount key ≤ APIKey.UsedCount key'
                    ≤ APIKey.UsedCount key + Z.of_nat (length ops))
    as (key' & Hf' & He' & HL' & HU').
  { assert (∀ n,
      APIKey.UsedCount key + n + Z.of_nat (length ops) ≤ int64_max →
      (∃ k, FindAPIKey v s = Some k ∧ APIKey.Enabled k = true ∧
            APIKey.TotalLimit k = APIKey.TotalLimit key ∧
            APIKey.UsedCount key ≤ APIKey.UsedCount k
              ≤ APIKey.UsedCount key + n) →
      ∃ k, FindAPIKey v (run ops s).1 = Some k ∧ APIKey.Enabled k = true ∧
           APIKey.TotalLimit k = APIKey.TotalLimit key ∧
           APIKey.UsedCount key ≤ APIKey.UsedCount k
             ≤ APIKey.UsedCount key + (n + Z.of_nat (length ops))) as Hgen.
    { clear Hf He Hmax. revert s.
      induction Hops as [|o ops Ho _ IH]; intros s n Hn Hinv.
      - simpl in *. destruct Hinv as (k & ? & ? & ? & ?).
        exists k. split_and!; try done; lia.
      - rewrite run_cons. simpl fst. simpl length in *.
        destruct (IH (step o s).1 (n + 1)) as (k & ? & ? & ? & ?); [lia| |].
        + apply traffic_step_usage; [done|lia| |done].
          unfold int64_min. lia.
        + exists k. split_and!; try done; lia. }
    destruct (Hgen 0) as (k & ? & ? & ? & ?); [lia| |].
    - exists key. split_and!; try done; lia.
    - exists k. split_and!; try done; lia. }
  rewrite (BeginRequest_resolved _ _ _ Hf'). simpl.
  rewrite bool_decide_eq_false_2 by auto. rewrite He'. simpl.
  rewrite !bool_decide_eq_true_2 by lia. done.
Qed.

Lemma quota_exhausted_stays_witness :
  (BeginRequest "mj3gc-secret"
     (run [OpBeginRequest "mj3gc-secret"; OpEndRequest "mj3gc-secret" true]
          (EndRequest "mj3gc-secret" true scenario_store)).1).1 =
    Err ErrQuotaExceeded.
Proof.
  apply (quota_exhausted_stays _ _ _
           (APIKey.with_UsedCount 3 scenario_key)).
  - repeat constructor.
  - reflexivity.
  - reflexivity.
  - simpl. lia.
  - simpl. lia.
  - simpl. unfold int64_max. lia.
Defined.

(** ** The quota middleware *)

Lemma BeginRequest_errors value s e :
  (BeginRequest value s).1 = Err e →
  e = ErrKeyNotFound ∨ e = ErrKeyDisabled ∨ e = ErrQuotaExceeded ∨
  e = ErrConcurrencyExceeded.
Proof.
  destruct (FindAPIKey value s) as [key|] eqn:Hf.
  - rewrite (BeginRequest_resolved _ _ _ Hf). simpl.
    rewrite bool_decide_eq_false_2 by auto.
    destruct (APIKey.Enabled key); simpl; [|intros [= <-]; auto].
    destruct (_ && _); [intros [= <-]; auto|].
    case_bool_decide; [|done].
    case_bool_decide; [|done]. intros [= <-]. auto.
  - rewrite (BeginRequest_unresolved _ _ Hf). intros [= <-]. auto.
Qed.

(** [X8] When the middleware aborts a request, it is with the error of
    [BeginRequest] for the string in the context: status 429 for quota
    or concurrency, 401 for an unknown or disabled key, and never 403;
    the rest of the chain has not run, and store and files are as they
    were. *)
Theorem QuotaMiddleware_abort
    (marshal : Data → result string) (apiKey : option ctx_value)
    (next : Store → FS → Store * FS * Z) (io : SaveIO) (now : Time)
    (s s' : Store) (fs fs' : FS) (status : Z) (msg : string) :
  QuotaMiddleware marshal apiKey next io now s fs =
    (Some (status, msg), s', fs') →
  s' = s ∧ fs' = fs ∧
  ∃ v e, apiKey = Some (CtxString v) ∧ v ≠ "" ∧
    (BeginRequest v s).1 = Err e ∧ msg = error_text e ∧
    (((e = ErrQuotaExceeded ∨ e = ErrConcurrencyExceeded) ∧
      status = StatusTooManyRequests) ∨
     ((e = ErrKeyNotFound ∨ e = ErrKeyDisabled) ∧
      status = StatusUnauthorized)).
Proof.
  unfold QuotaMiddleware.
  destruct apiKey as [[v|]|]; simpl.
  - case_bool_decide as Hv; [by destruct (next s fs) as [[? ?] ?]|].
    destruct (BeginRequest v s) as [[key|e] s1] eqn:E.
    + by destruct (next s1 fs) as [[? ?] ?].
    + intros [= <- <- <- <-].
      pose proof (BeginRequest_Err _ _ _ _ E) as ->.
      split_and!; [done..|]. exists v, e. split_and!; try done.
      { by rewrite E. }
      destruct (BeginRequest_errors v s e) as [-> | [-> | [-> | ->]]];
        [by rewrite E|..]; simpl; auto.
  - by destruct (next s fs) as [[? ?] ?].
  - by destruct (next s fs) as [[? ?] ?].
Qed.

Lemma QuotaMiddleware_abort_witness :
  let s := (BeginRequest "mj3gc-secret" scenario_store).2 in
  s = s ∧ (∅ : FS) = ∅ ∧
  ∃ v e, Some (CtxString "mj3gc-secret") = Some (CtxString v) ∧ v ≠ "" ∧
    (BeginRequest v s).1 = Err e ∧ "concurrency exceeded" = error_text e ∧
    (((e = ErrQuotaExceeded ∨ e = ErrConcurrencyExceeded) ∧
      429 = StatusTooManyRequests) ∨
     ((e = ErrKeyNotFound ∨ e = ErrKeyDisabled) ∧
      429 = StatusUnauthorized)).
Proof.
  apply (QuotaMiddleware_abort (doc_MarshalIndent scenario_docs)
           (Some (CtxString "mj3gc-secret")) (λ s fs, (s, fs, 200))
           (quiet "/data/mj3gc-42.json") 7).
  reflexivity.
Defined.

(** [X9] Around a chain that leaves the store alone and answers with
    [status], the middleware gives back the slot it reserved: every
    in-flight count is as before the request. The usage of the admitted
    key goes up by one when the status is below 400, and the Record Set
    is untouched when it is not (or when the request was not admitted). *)
Theorem QuotaMiddleware_releases
    (marshal : Data → result string) (apiKey : option ctx_value)
    (status : Z) (io : SaveIO) (now : Time) (s : Store) (fs : FS) :
  Store_typed s → counts_nonneg s →
  let out := QuotaMiddleware marshal apiKey (λ s0 f0, (s0, f0, status))
                             io now s fs in
  (∀ id, inflight_get (inflight out.1.2) id = inflight_get (inflight s) id) ∧
  (data out.1.2 = data s ∨
   status < StatusBadRequest ∧
   ∃ v key i, apiKey = Some (CtxString v) ∧
     (BeginRequest v s).1 = Ok key ∧
     APIKeys (data s) !! i = Some key ∧
     data out.1.2 =
       mkData (Version (data s)) (UpdatedAt (data s)) (Users (data s))
              (<[i := charge true key]> (APIKeys (data s)))).
Proof.
  intros Ht Hnn. unfold QuotaMiddleware.
  destruct apiKey as [[v|]|]; simpl; [|by split; [|left]..].
  case_bool_decide as Hv; simpl; [by split; [|left]|].
  destruct (BeginRequest v s) as [[key|e] s1] eqn:E; simpl.
  - destruct (BeginRequest_EndRequest_data v
                (bool_decide (status < StatusBadRequest)) s s1 key E)
      as (i & Hi & Hend).
    assert (data (EndRequest v (bool_decide (status < StatusBadRequest)) s1)
            = mkData (Version (data s)) (UpdatedAt (data s)) (Users (data s))
                (<[i := charge (bool_decide (status < StatusBadRequest)) key]>
                   (APIKeys (data s)))) as Hd by by rewrite Hend.
    split.
    { rewrite Hend. simpl.
      by apply (BeginRequest_release_inflight v). }
    case_bool_decide as Hs.
    + right. split; [done|]. exists v, key, i. by rewrite E.
    + left. rewrite Hd. simpl. rewrite list_insert_id by done.
      by rewrite data_eta.
  - apply BeginRequest_Err in E as ->. by split; [|left].
Qed.

Lemma QuotaMiddleware_releases_witness :
  let out := QuotaMiddleware (doc_MarshalIndent scenario_docs)
               (Some (CtxString "mj3gc-secret")) (λ s0 f0, (s0, f0, 200))
               (quiet "/data/mj3gc-42.json") 7 scenario_store ∅ in
  (∀ id, inflight_get (inflight out.1.2) id =
         inflight_get (inflight scenario_store) id) ∧
  (data out.1.2 = data scenario_store ∨
   200 < StatusBadRequest ∧
   ∃ v key i, Some (CtxString "mj3gc-secret") = Some (CtxString v) ∧
     (BeginRequest v scenario_store).1 = Ok key ∧
     APIKeys (data scenario_store) !! i = Some key ∧
     data out.1.2 =
       mkData (Version (data scenario_store))
              (UpdatedAt (data scenario_store))
              (Users (data scenario_store))
              (<[i := charge true key]> (APIKeys (data scenario_store)))).
Proof.
  apply QuotaMiddleware_releases.
  - exact scenario_store_typed.
  - intros id. simpl. rewrite inflight_get_empty. lia.
Defined.

(** ** Lists without duplicates under a projection *)

Section nodup_fmap.
Context {A B : Type} (f : A → B).
Implicit Types (l : list A).

Lemma NoDup_fmap_elem_inj l x y :
  NoDup (f <$> l) → x ∈ l → y ∈ l → f x = f y → x = y.
Proof.
  intros Hnd [i Hi]%list_elem_of_lookup_1 [j Hj]%list_elem_of_lookup_1 Hf.
  assert (i = j) as ->.
  { apply (NoDup_lookup (f <$> l) i j (f x) Hnd).
    - by rewrite list_lookup_fmap, Hi.
    - by rewrite list_lookup_fmap, Hj, Hf. }
  congruence.
Qed.

Lemma NoDup_fmap_insert l i x x' :
  NoDup (f <$> l) → l !! i = Some x →
  (∀ j y, j ≠ i → l !! j = Some y → f y ≠ f x') →
  NoDup (f <$> <[i:=x']> l).
Proof.
  intros Hnd Hi Hother. apply NoDup_alt. intros a b z Ha Hb.
  rewrite list_lookup_fmap in Ha, Hb.
  apply fmap_Some in Ha as (ya & Ha & ->).
  apply fmap_Some in Hb as (yb & Hb & Hz).
  apply list_lookup_insert_Some in Ha as [(-> & -> & _)|(Hai & Ha)];
    apply list_lookup_insert_Some in Hb as [(-> & -> & _)|(Hbi & Hb)].
  - done.
  - exfalso. by eapply (Hother b yb).
  - exfalso. by eapply (Hother a ya).
  - apply (NoDup_lookup (f <$> l) a b (f ya) Hnd).
    + by rewrite list_lookup_fmap, Ha.
    + by rewrite list_lookup_fmap, Hb, Hz.
Qed.

Lemma NoDup_fmap_snoc l x :
  NoDup (f <$> l) → (∀ y, y ∈ l → f y ≠ f x) → NoDup (f <$> (l ++ [x])).
Proof.
  intros Hnd Hx. rewrite fmap_app. apply NoDup_app. split_and!.
  - done.
  - intros z (y & -> & Hy)%list_elem_of_fmap Hz.
    apply list_elem_of_singleton in Hz. by eapply Hx.
  - apply NoDup_singleton.
Qed.

Lemma NoDup_fmap_filter (P : A → Prop) `{!∀ x, Decision (P x)} l :
  NoDup (f <$> l) → NoDup (f <$> filter P l).
Proof.
  intros Hnd. eapply sublist_NoDup; [done|].
  apply fmap_sublist. apply sublist_filter.
Qed.
End nodup_fmap.

(** ** The key table stays well formed *)

Lemma replaceKey_Some ks key ks' :
  replaceKey ks key = Some ks' →
  ∃ i k, ks !! i = Some k ∧ APIKey.ID k = APIKey.ID key ∧
         ks' = <[i := key]> ks.
Proof.
  revert ks'. induction ks as [|k0 ks IH]; intros ks'; simpl; [done|].
  case_bool_decide as Hid.
  - intros [= <-]. by exists 0%nat, k0.
  - destruct (replaceKey ks key) as [r|]; [|done].
    intros [= <-]. destruct (IH r eq_refl) as (i & k & Hi & Hk & ->).
    by exists (S i), k.
Qed.

Lemma replaceKey_None ks key :
  replaceKey ks key = None → ∀ k, k ∈ ks → APIKey.ID k ≠ APIKey.ID key.
Proof.
  induction ks as [|k0 ks IH]; simpl.
  - intros _ k Hk. by apply elem_of_nil in Hk.
  - case_bool_decide as Hid; [done|].
    destruct (replaceKey ks key) as [r|]; [done|].
    intros _ k [->|Hk]%elem_of_cons; [done|]. by apply IH.
Qed.

Lemma existsb_false_elem {A} (g : A → bool) (l : list A) x :
  existsb g l = false → x ∈ l → g x = false.
Proof.
  intros He Hx. destruct (g x) eqn:Hg; [|done].
  rewrite (existsb_elem_of g l x Hx Hg) in He. done.
Qed.

Lemma newID_nonempty prefix rnd : newID prefix rnd ≠ "".
Proof. unfold newID. destruct prefix; simpl; discriminate. Qed.

Lemma UpsertAPIKey_Ok key now rnd s key' s' :
  UpsertAPIKey key now rnd s = (Ok key', s') →
  TrimSpace (APIKey.Key key) ≠ "" ∧
  APIKey.Key key' = APIKey.Key key ∧
  APIKey.ID key' =
    (if bool_decide (APIKey.ID key = "") then newID "key" rnd
     else APIKey.ID key) ∧
  (∀ e, e ∈ APIKeys (data s) → APIKey.Key e = APIKey.Key key →
        APIKey.ID e = APIKey.ID key) ∧
  path s' = path s ∧ inflight s' = inflight s ∧
  Users (data s') = Users (data s) ∧
  ((∃ i k, APIKey.ID key ≠ "" ∧ APIKeys (data s) !! i = Some k ∧
           APIKey.ID k = APIKey.ID key ∧
           APIKeys (data s') = <[i := key']> (APIKeys (data s))) ∨
   ((∀ k, k ∈ APIKeys (data s) → APIKey.ID k ≠ APIKey.ID key') ∨
    APIKey.ID key = "") ∧
   APIKeys (data s') = APIKeys (data s) ++ [key']).
Proof.
  unfold UpsertAPIKey. case_bool_decide as Hblank; [done|].
  set (key1 := if IsZero (APIKey.CreatedAt key)
               then APIKey.with_CreatedAt now key else key).
  assert (APIKey.Key key1 = APIKey.Key key ∧ APIKey.ID key1 = APIKey.ID key)
    as [HK HI].
  { unfold key1. by destruct (IsZero _). }
  destruct (existsb _ _) eqn:Hdup; [done|].
  assert (∀ e, e ∈ APIKeys (data s) → APIKey.Key e = APIKey.Key key →
               APIKey.ID e = APIKey.ID key) as Hsame.
  { intros e He Hk.
    pose proof (existsb_false_elem _ _ e Hdup He) as Hf. simpl in Hf.
    rewrite HK, HI in Hf. rewrite bool_decide_eq_true_2 in Hf by done.
    simpl in Hf. apply bool_decide_eq_false in Hf.
    by destruct (decide (APIKey.ID e = APIKey.ID key)). }
  rewrite HI. case_bool_decide as Hid.
  - intros [= <- <-]. simpl. split_and!; try done.
    right. split; [by right|done].
  - destruct (replaceKey _ key1) as [ks'|] eqn:E.
    + intros [= <- <-]. simpl. split_and!; try done.
      left. destruct (replaceKey_Some _ _ _ E) as (i & k & Hi & Hk & ->).
      exists i, k. split_and!; try done. congruence.
    + intros [= <- <-]. simpl. split_and!; try done.
      right. split; [|done]. left. by apply replaceKey_None.
Qed.

Lemma UpsertAPIKey_Err key now rnd s e s' :
  UpsertAPIKey key now rnd s = (Err e, s') → s' = s.
Proof.
  unfold UpsertAPIKey.
  repeat (case_bool_decide || case_match || simpl); by intros [= _ <-].
Qed.

Lemma UpsertAPIKey_keys_wf key now rnd s :
  keys_wf (APIKeys (data s)) →
  op_fresh (OpUpsertAPIKey key now rnd) s →
  keys_wf (APIKeys (data (UpsertAPIKey key now rnd s).2)).
Proof.
  intros (HnI & HnK & Hne) Hfresh. simpl in Hfresh.
  destruct (UpsertAPIKey key now rnd s) as [[key'|e] s'] eqn:E; simpl;
    [|by apply UpsertAPIKey_Err in E as ->].
  apply UpsertAPIKey_Ok in E
    as (Hblank & HK & HI & Hsame & _ & _ & _ & Hcases).
  assert (APIKey.ID key' ≠ "") as Hne'.
  { rewrite HI. case_bool_decide; [apply newID_nonempty|done]. }
  destruct Hcases as [(i & k & Hid & Hi & Hk & ->)|[Hnew ->]].
  - rewrite bool_decide_eq_false_2 in HI by done.
    split_and!.
    + rewrite list_fmap_insert, HI, <- Hk. rewrite list_insert_id; [done|].
      by rewrite list_lookup_fmap, Hi.
    + apply (NoDup_fmap_insert _ _ _ k); [done..|].
      intros j y Hj Hy Heq. rewrite HK in Heq.
      pose proof (Hsame y (list_elem_of_lookup_2 _ _ _ Hy) Heq) as Hyid.
      apply Hj. apply (NoDup_lookup (APIKey.ID <$> APIKeys (data s)) j i
                         (APIKey.ID key) HnI).
      * by rewrite list_lookup_fmap, Hy, <- Hyid.
      * by rewrite list_lookup_fmap, Hi, <- Hk.
    + intros x (j & Hj)%list_elem_of_lookup.
      apply list_lookup_insert_Some in Hj as [(_ & <- & _)|(_ & Hj)];
        [done|]. apply Hne. by eapply list_elem_of_lookup_2.
  - assert (∀ y, y ∈ APIKeys (data s) → APIKey.ID y ≠ APIKey.ID key')
      as Hfree.
    { destruct Hnew as [?|Hempty]; [done|].
      rewrite HI, bool_decide_eq_true_2 by done.
      intros y Hy Heq. apply (Hfresh Hempty). rewrite <- Heq.
      by apply list_elem_of_fmap_2. }
    split_and!.
    + by apply NoDup_fmap_snoc.
    + apply NoDup_fmap_snoc; [done|]. intros y Hy Heq. rewrite HK in Heq.
      pose proof (Hsame y Hy Heq) as Hyid.
      destruct (decide (APIKey.ID key = "")) as [Hempty|Hfull].
      * apply (Hne y Hy). congruence.
      * apply (Hfree y Hy). rewrite HI.
        by rewrite bool_decide_eq_false_2.
    + intros x [Hx | ->%list_elem_of_singleton]%elem_of_app; [|done].
      by apply Hne.
Qed.

Lemma fmap_insert_same {A B} (f : A → B) (l : list A) i x x' :
  l !! i = Some x → f x' = f x → f <$> <[i:=x']> l = f <$> l.
Proof.
  intros Hi Hf. rewrite list_fmap_insert, Hf.
  apply list_insert_id. by rewrite list_lookup_fmap, Hi.
Qed.

Lemma step_keys_wf o s :
  keys_wf (APIKeys (data s)) → op_fresh o s →
  keys_wf (APIKeys (data (step o s).1)).
Proof.
  intros Hwf Hfresh.
  destruct o as [value|value count| key now rnd | id | user now rnd | id
                 | p | unmarshal fault now fs ]; simpl in *.
  - destruct (BeginRequest value s) as [[key|e] s1] eqn:E; simpl.
    + apply BeginRequest_Ok in E as (_ & _ & _ & -> & _). done.
    + by apply BeginRequest_Err in E as ->.
  - destruct (FindAPIKey value s) as [key|] eqn:Hf.
    + destruct (EndRequest_resolved value count s key Hf) as (i & Hi & ->).
      simpl. destruct Hwf as (HnI & HnK & Hne). split_and!.
      * by rewrite (fmap_insert_same _ _ _ key) by (done || apply charge_ID).
      * by rewrite (fmap_insert_same _ _ _ key) by (done || apply charge_Key).
      * intros x (j & Hj)%list_elem_of_lookup.
        apply list_lookup_insert_Some in Hj as [(_ & <- & _)|(_ & Hj)].
        -- rewrite charge_ID. apply Hne. by eapply list_elem_of_lookup_2.
        -- apply Hne. by eapply list_elem_of_lookup_2.
    + by rewrite (EndRequest_unresolved _ _ _ Hf).
  - by apply UpsertAPIKey_keys_wf.
  - unfold DeleteAPIKey. case_bool_decide; [done|].
    destruct (existsb _ _); [|done]. simpl.
    destruct Hwf as (HnI & HnK & Hne). split_and!.
    + by apply NoDup_fmap_filter.
    + by apply NoDup_fmap_filter.
    + intros x [_ Hx]%list_elem_of_filter. by apply Hne.
  - by destruct (UpsertUser_keys user now rnd s) as [-> _].
  - by destruct (DeleteUser_keys id s) as [-> _].
  - done.
  - unfold Load. case_bool_decide; [done|].
    destruct (os_ReadFile _ _ _) as [raw|e].
    + destruct (unmarshal raw) as [d|e] eqn:Hd; [|done]. simpl.
      case_bool_decide; simpl; by eapply Hfresh.
    + destruct (os_IsNotExist e); [|done]. simpl.
      split_and!; [constructor..|]. intros k Hk. by apply elem_of_nil in Hk.
Qed.

(** [X10] The key table stays well formed (no empty identifier, no identifier
    and no credential string twice) along every sequence of store
    operations, as long as the random identifiers [newID] draws are not
    in use and the files that are loaded hold well-formed tables. *)
Theorem keys_stay_wf (ops : list op) (s0 : Store) :
  keys_wf (APIKeys (data s0)) → run_fresh ops s0 →
  keys_wf (APIKeys (data (run ops s0).1)).
Proof.
  revert s0. induction ops as [|o ops IH]; intros s0 Hwf Hfresh; [done|].
  destruct Hfresh as [Ho Hrest]. rewrite run_cons. simpl.
  apply IH; [by apply step_keys_wf|done].
Qed.

Lemma keys_stay_wf_witness :
  keys_wf (APIKeys (data (run lowering_ops NewStore).1)).
Proof.
  apply keys_stay_wf.
  - split_and!; [constructor..|]. intros k Hk. by apply elem_of_nil in Hk.
  - repeat split; simpl; discriminate.
Defined.

(** ** Upsert, then look up *)

Lemma UpsertAPIKey_Ok_elem key now rnd s key' s' :
  UpsertAPIKey key now rnd s = (Ok key', s') → key' ∈ APIKeys (data s').
Proof.
  intros (_ & _ & _ & _ & _ & _ & _ & Hcases)%UpsertAPIKey_Ok.
  destruct Hcases as [(i & k & _ & Hi & _ & ->)|[_ ->]].
  - apply list_elem_of_insert. by eapply lookup_lt_Some.
  - apply elem_of_app. right. by apply list_elem_of_singleton.
Qed.



(** ** Deleting a key *)


(** ** Users *)










(** ** Users and admission *)

Lemma BeginRequest_depends value s1 s2 :
  APIKeys (data s1) = APIKeys (data s2) → inflight s1 = inflight s2 →
  (BeginRequest value s1).1 = (BeginRequest value s2).1.
Proof.
  intros Hk Hf. unfold BeginRequest. case_bool_decide; [done|].
  rewrite Hk, Hf. by destruct (BeginRequest_loop _ _ _).
Qed.

(** [X15] Upserting or deleting a user changes no key and no in-flight count:
    [BeginRequest] answers as before, also for the keys of a user who was
    just deleted. *)
Theorem user_operations_leave_admission
    (value : string) (user : User.t) (now : Time) (rnd id : string)
    (s : Store) :
  (BeginRequest value (UpsertUser user now rnd s).2).1 =
    (BeginRequest value s).1 ∧
  (BeginRequest value (DeleteUser id s).2).1 = (BeginRequest value s).1 ∧
  APIKeys (data (DeleteUser id s).2) = APIKeys (data s).
Proof.
  destruct (UpsertUser_keys user now rnd s) as [Hk1 Hf1].
  destruct (DeleteUser_keys id s) as [Hk2 Hf2].
  split_and!; [by apply BeginRequest_depends..|done].
Qed.

(** ** The portal *)

Lemma extractKeyFromRequest_trimmed r :
  TrimSpace (extractKeyFromRequest r).1 = (extractKeyFromRequest r).1.
Proof.
  unfold extractKeyFromRequest.
  repeat (case_bool_decide || case_match || simplify_eq/=);
    by rewrite ?TrimSpace_idem.
Qed.

(** [X16] A request the portal middleware lets through has a context with the
    key it authenticated with, which is enabled, and with the key's owner
    (the zero user when the store has none). The portal handlers then
    work on that one key record, as it was at authentication, whatever
    the store holds by then: never on the other keys of the user. *)
Theorem portal_context_has_one_key
    (s s' : Store) (r : Request) (ctx : PortalContext) :
  PortalAuthMiddleware s r = inl ctx →
  ∃ key, ctx_Key ctx = Some key ∧ APIKey.Enabled key = true ∧
         key ∈ APIKeys (data s) ∧
         APIKey.Key key = (extractKeyFromRequest r).1 ∧
         ctx_User ctx =
           default User_zero (FindUserByID (APIKey.UserID key) s) ∧
         portalKeys ctx s' = [key].
Proof.
  unfold PortalAuthMiddleware, authenticateAPIKey.
  pose proof (extractKeyFromRequest_trimmed r) as Htrim.
  destruct (extractKeyFromRequest r) as [value source]. simpl in *.
  case_bool_decide; [done|].
  destruct (FindAPIKey value s) as [key|] eqn:Hf; [|done].
  destruct (APIKey.Enabled key) eqn:He; [|done]. simpl.
  intros [= <-]. exists key.
  apply FindAPIKey_Some in Hf as (_ & Hin & Hk).
  split_and!; try done. congruence.
Qed.

Lemma portal_context_has_one_key_witness :
  ∃ key, Some scenario_key = Some key ∧ APIKey.Enabled key = true ∧
         key ∈ APIKeys (data scenario_store) ∧
         APIKey.Key key = (extractKeyFromRequest query_request).1 ∧
         User_zero =
           default User_zero
             (FindUserByID (APIKey.UserID key) scenario_store) ∧
         portalKeys (mkPortalContext User_zero (Some scenario_key)) NewStore =
           [key].
Proof.
  apply (portal_context_has_one_key scenario_store NewStore query_request
           (mkPortalContext User_zero (Some scenario_key))).
  reflexivity.
Defined.

(** ** Atomic replacement of the backing file *)



(** ** The access provider in the configuration *)


(** ** Responses without password hashes *)

(** [X19] The users in the responses of [GetMJ3GCState] and [GetMJ3GCUsers]
    are the users of the store, one for one and in their order, each
    with every field but the password hash, which is empty. *)
Theorem responses_hide_password_hashes (s : Store) :
  resp_users (GetMJ3GCState s) = GetMJ3GCUsers s ∧
  length (GetMJ3GCUsers s) = length (Users (data s)) ∧
  ∀ i u, Users (data s) !! i = Some u →
    ∃ u', GetMJ3GCUsers s !! i = Some u' ∧
          User.PasswordHash u' = "" ∧
          User.ID u' = User.ID u ∧ User.Username u' = User.Username u ∧
          User.Role u' = User.Role u ∧ User.Disabled u' = User.Disabled u ∧
          User.CreatedAt u' = User.CreatedAt u.
Proof.
  unfold GetMJ3GCUsers, GetMJ3GCState, ListUsers. simpl.
  split_and!; [done|by rewrite length_fmap|].
  intros i u Hi. exists (SanitizeUser u). split; [|done].
  by rewrite list_lookup_fmap, Hi.
Qed.

(** ** Usage reports and admission *)

(** [X20] For an enabled key with a usage counter that is not negative, the
    usage report and the admission check agree: the report's [remaining]
    is the lifetime limit minus the usage, never below 0 and 0 for a key
    without limit, and a key with a limit shows 0 remaining exactly when
    [BeginRequest] refuses its credential with [ErrQuotaExceeded]. *)
Theorem remaining_agrees_with_quota
    (value : string) (s : Store) (key : APIKey.t)
    (snapshot : StatisticsSnapshot) :
  FindAPIKey value s = Some key →
  APIKey.Enabled key = true →
  in_int64 (APIKey.TotalLimit key) →
  0 ≤ APIKey.UsedCount key ≤ int64_max →
  usage_Remaining (buildKeyUsage key snapshot) =
    (if bool_decide (APIKey.TotalLimit key > 0)
     then Z.max 0 (APIKey.TotalLimit key - APIKey.UsedCount key) else 0) ∧
  ((BeginRequest value s).1 = Err ErrQuotaExceeded ↔
   0 < usage_TotalLimit (buildKeyUsage key snapshot) ∧
   usage_Remaining (buildKeyUsage key snapshot) = 0).
Proof.
  intros Hf He [Hlo Hhi] Hused.
  unfold int64_min, int64_max in *.
  assert (usage_Remaining (buildKeyUsage key snapshot) =
          (if bool_decide (APIKey.TotalLimit key > 0)
           then Z.max 0 (APIKey.TotalLimit key - APIKey.UsedCount key)
           else 0)) as Hrem.
  { unfold buildKeyUsage. simpl. case_bool_decide as Hlim; [|done].
    rewrite wrap64_id by (unfold in_int64, int64_min, int64_max; lia).
    case_bool_decide; lia. }
  split; [done|]. rewrite Hrem.
  rewrite (BeginRequest_resolved _ _ _ Hf). simpl.
  rewrite bool_decide_eq_false_2 by auto. rewrite He. simpl.
  destruct (decide (APIKey.TotalLimit key > 0)) as [Hlim|Hlim].
  - rewrite !(bool_decide_eq_true_2 (APIKey.TotalLimit key > 0)) by done.
    simpl.
    destruct (decide (APIKey.UsedCount key >= APIKey.TotalLimit key))
      as [Hq|Hq].
    + rewrite bool_decide_eq_true_2 by done. simpl. split; [|done].
      intros _. lia.
    + rewrite bool_decide_eq_false_2 by done. simpl.
      rewrite (bool_decide_eq_true_2 (APIKey.ConcurrencyLimit key > 0)
               || bool_decide_eq_false_2 (APIKey.ConcurrencyLimit key > 0))
        || idtac.
      split; [|lia].
      repeat case_bool_decide; simpl; done.
  - rewrite !(bool_decide_eq_false_2 (APIKey.TotalLimit key > 0)) by done.
    simpl. split; [|lia].
    repeat case_bool_decide; simpl; done.
Qed.

Lemma remaining_agrees_with_quota_witness :
  usage_Remaining (buildKeyUsage scenario_key ∅) =
    (if bool_decide (APIKey.TotalLimit scenario_key > 0)
     then Z.max 0 (APIKey.TotalLimit scenario_key
                   - APIKey.UsedCount scenario_key) else 0) ∧
  ((BeginRequest "mj3gc-secret" scenario_store).1 = Err ErrQuotaExceeded ↔
   0 < usage_TotalLimit (buildKeyUsage scenario_key ∅) ∧
   usage_Remaining (buildKeyUsage scenario_key ∅) = 0).
Proof.
  apply (remaining_agrees_with_quota "mj3gc-secret" scenario_store
           scenario_key ∅).
  - reflexivity.
  - reflexivity.
  - apply in_int64_small. simpl. lia.
  - simpl. unfold int64_max. lia.
Defined.

(** ** The management handlers for keys *)

Lemma FindAPIKeyByID_Some id s k :
  FindAPIKeyByID id s = Some k →
  TrimSpace id ≠ "" ∧ k ∈ APIKeys (data s) ∧ APIKey.ID k = TrimSpace id.
Proof.
  unfold FindAPIKeyByID. case_bool_decide; [done|].
  intros [Hk Heq]%find_some. apply bool_decide_eq_true in Heq.
  split_and!; [done| |done]. by apply list_elem_of_In.
Qed.


Lemma FindAPIKey_intro value s k :
  NoDup (APIKey.Key <$> APIKeys (data s)) → k ∈ APIKeys (data s) →
  APIKey.Key k = TrimSpace value → TrimSpace value ≠ "" →
  FindAPIKey value s = Some k.
Proof.
  intros Hnd Hin Hkey Hne. unfold FindAPIKey.
  rewrite bool_decide_eq_false_2 by done.
  destruct (List.find _ _) as [k0|] eqn:Hfind.
  - apply find_key_spec in Hfind as (i & Hi & Hk & _).
    f_equal. apply (NoDup_fmap_elem_inj APIKey.Key (APIKeys (data s)));
      [done|by eapply list_elem_of_lookup_2|done|congruence].
  - exfalso. by apply (proj1 (find_key_none _ _) Hfind k Hin).
Qed.


Lemma FindAPIKey_trim value s :
  FindAPIKey (TrimSpace value) s = FindAPIKey value s.
Proof. unfold FindAPIKey. by rewrite TrimSpace_idem. Qed.

(** The record a successful [UpsertAPIKey] returns and stores. *)
Lemma UpsertAPIKey_Ok_record key now rnd s key' s' :
  UpsertAPIKey key now rnd s = (Ok key', s') →
  key' =
    APIKey.with_ID
      (if bool_decide (APIKey.ID key = "") then newID "key" rnd
       else APIKey.ID key)
      (if IsZero (APIKey.CreatedAt key)
       then APIKey.with_CreatedAt now key else key).
Proof.
  unfold UpsertAPIKey. case_bool_decide; [done|].
  set (key1 := if IsZero (APIKey.CreatedAt key)
               then APIKey.with_CreatedAt now key else key).
  assert (APIKey.ID key1 = APIKey.ID key) as HI.
  { unfold key1. by destruct (IsZero _). }
  assert (APIKey.with_ID (APIKey.ID key) key1 = key1) as Heta.
  { rewrite <- HI. by destruct key1. }
  destruct (existsb _ _); [done|].
  rewrite HI. case_bool_decide as Hid; [by intros [= <- _]|].
  rewrite Heta. destruct (replaceKey _ _); by intros [= <- _].
Qed.



Lemma scenario_keys_wf : keys_wf (APIKeys (data scenario_store)).
Proof.
  split_and!.
  - apply NoDup_singleton.
  - apply NoDup_singleton.
  - intros k ->%list_elem_of_singleton. done.
Qed.


(** [X22] Deleting, through the handler, a key that is stored in a well-formed
    table under the identifier of the request revokes its credential:
    whether or not the store could be saved afterwards (the answer is
    200 if it could, 500 if not), the credential is no longer found,
    [BeginRequest] refuses it with [ErrKeyNotFound], and the access
    provider refuses every request that carries it. The other keys stay,
    and so do the in-flight counts, the one of the deleted key
    included. *)
Theorem DeleteMJ3GCKey_revokes
    (marshal : Data → result string) (param value : string) (io : SaveIO)
    (now : Time) (s : Store) (fs : FS) (key : APIKey.t) :
  keys_wf (APIKeys (data s)) →
  FindAPIKeyByID param s = Some key →
  FindAPIKey value s = Some key →
  ∃ s',
    DeleteMJ3GCKey marshal param io now s fs =
      (match (Save marshal io now fs s').1 with
       | None => RespStatus StatusOK
       | Some _ =>
           RespError StatusInternalServerError "failed to persist store"
       end, s', (Save marshal io now fs s').2) ∧
    (∀ k, k ∈ APIKeys (data s') ↔ k ∈ APIKeys (data s) ∧ k ≠ key) ∧
    inflight s' = inflight s ∧
    FindAPIKey value s' = None ∧
    BeginRequest value s' = (Err ErrKeyNotFound, s') ∧
    ∀ name r, (extractAPIKey r).1 = TrimSpace value →
              Authenticate name s' r = inr ErrInvalidCredential.
Proof.
  intros (HnI & HnK & Hne) Hid Hv.
  pose proof (FindAPIKeyByID_Some _ _ _ Hid) as (Hidne & Hin & HI).
  pose proof (FindAPIKey_Some _ _ _ Hv) as (Hvne & _ & HK).
  assert ((DeleteAPIKey (TrimSpace param) s).1 = None ∧
          (∀ k, k ∈ APIKeys (data (DeleteAPIKey (TrimSpace param) s).2) ↔
                k ∈ APIKeys (data s) ∧ APIKey.ID k ≠ TrimSpace param) ∧
          inflight (DeleteAPIKey (TrimSpace param) s).2 = inflight s)
    as (Hnone & Hkeys & Hfl).
  { unfold DeleteAPIKey. rewrite TrimSpace_idem.
    rewrite bool_decide_eq_false_2 by done.
    destruct (existsb _ _) eqn:Hex; simpl.
    - split_and!; [done| |done]. intros k.
      rewrite list_elem_of_filter. tauto.
    - exfalso. pose proof (existsb_false_elem _ _ key Hex Hin) as Hf.
      simpl in Hf. by apply bool_decide_eq_false in Hf. }
  destruct (DeleteAPIKey (TrimSpace param) s) as [res s'] eqn:E.
  simpl in Hnone, Hkeys, Hfl. subst res.
  assert (∀ k, k ∈ APIKeys (data s') ↔ k ∈ APIKeys (data s) ∧ k ≠ key)
    as Hkeys'.
  { intros k. rewrite Hkeys. split; intros [Hk Hneq]; split; try done.
    - intros ->. done.
    - intros Heq. apply Hneq.
      apply (NoDup_fmap_elem_inj APIKey.ID (APIKeys (data s)));
        [done..|congruence]. }
  assert (FindAPIKey value s' = None) as Hnf.
  { apply FindAPIKey_None. right. intros k [Hk Hneq]%Hkeys' Heq.
    apply Hneq.
    apply (NoDup_fmap_elem_inj APIKey.Key (APIKeys (data s)));
      [done..|congruence]. }
  exists s'. split_and!; try done.
  - unfold DeleteMJ3GCKey. rewrite bool_decide_eq_false_2 by done.
    rewrite E. by destruct (Save marshal io now fs s') as [[e|] fs'].
  - by apply BeginRequest_unresolved.
  - intros name r Hr. unfold Authenticate.
    destruct (extractAPIKey r) as [v source]. simpl in Hr. subst v.
    rewrite bool_decide_eq_false_2 by done.
    by rewrite FindAPIKey_trim, Hnf.
Qed.

Lemma DeleteMJ3GCKey_revokes_witness :
  ∃ s',
    DeleteMJ3GCKey (doc_MarshalIndent scenario_docs) "key_1"
        (quiet "/data/mj3gc-42.json") 7 scenario_store ∅ =
      (match (Save (doc_MarshalIndent scenario_docs)
                   (quiet "/data/mj3gc-42.json") 7 ∅ s').1 with
       | None => RespStatus StatusOK
       | Some _ =>
           RespError StatusInternalServerError "failed to persist store"
       end, s',
       (Save (doc_MarshalIndent scenario_docs)
             (quiet "/data/mj3gc-42.json") 7 ∅ s').2) ∧
    (∀ k, k ∈ APIKeys (data s') ↔
          k ∈ APIKeys (data scenario_store) ∧ k ≠ scenario_key) ∧
    inflight s' = inflight scenario_store ∧
    FindAPIKey "mj3gc-secret" s' = None ∧
    BeginRequest "mj3gc-secret" s' = (Err ErrKeyNotFound, s') ∧
    ∀ name r, (extractAPIKey r).1 = TrimSpace "mj3gc-secret" →
              Authenticate name s' r = inr ErrInvalidCredential.
Proof.
  apply (DeleteMJ3GCKey_revokes (doc_MarshalIndent scenario_docs) "key_1"
           "mj3gc-secret" (quiet "/data/mj3gc-42.json") 7 scenario_store ∅
           scenario_key).
  - apply scenario_keys_wf.
  - reflexivity.
  - reflexivity.
Defined.

(** The fields of the key the upsert handler builds from a body. *)
Lemma keyFromRequest_fields body s :
  let id := TrimSpace (req_ID body) in
  let old := if bool_decide (id ≠ "")
             then default APIKey_zero (FindAPIKeyByID id s)
             else APIKey_zero in
  let key := keyFromRequest body s in
  APIKey.ID key = id ∧
  APIKey.Key key = from_option TrimSpace (APIKey.Key old) (req_Key body) ∧
  APIKey.Label key =
    from_option TrimSpace (APIKey.Label old) (req_Label body) ∧
  APIKey.UserID key =
    from_option TrimSpace (APIKey.UserID old) (req_UserID body) ∧
  APIKey.Enabled key =
    default (if bool_decide (id = "") then true else APIKey.Enabled old)
            (req_Enabled body) ∧
  APIKey.TotalLimit key =
    from_option (Z.max 0) (APIKey.TotalLimit old) (req_TotalLimit body) ∧
  APIKey.ConcurrencyLimit key =
    from_option (Z.max 0) (APIKey.ConcurrencyLimit old)
                (req_ConcurrencyLimit body) ∧
  APIKey.CompatibilityMode key =
    default (APIKey.CompatibilityMode old) (req_CompatibilityMode body) ∧
  APIKey.UsedCount key =
    (if req_ResetUsage body then 0 else APIKey.UsedCount old) ∧
  APIKey.CreatedAt key = APIKey.CreatedAt old.
Proof.
  unfold keyFromRequest.
  destruct body as [id k l u e t c m r]. simpl.
  set (old0 := match FindAPIKeyByID (TrimSpace id) s with
               | Some existing => existing
               | None => APIKey_zero
               end).
  change (default APIKey_zero (FindAPIKeyByID (TrimSpace id) s)) with old0.
  destruct (decide (TrimSpace id = "")) as [Hid|Hid].
  - rewrite (bool_decide_eq_false_2 (TrimSpace id ≠ "")) by auto.
    rewrite (bool_decide_eq_true_2 (TrimSpace id = "")) by done.
    rewrite Hid.
    destruct k, l, u, e, t, c, m, r; simpl;
      repeat case_bool_decide; simpl in *; split_and!; try done; lia.
  - rewrite (bool_decide_eq_true_2 (TrimSpace id ≠ "")) by auto.
    rewrite (bool_decide_eq_false_2 (TrimSpace id = "")) by done.
    destruct k, l, u, e, t, c, m, r; simpl;
      repeat case_bool_decide; simpl in *; split_and!; try done; lia.
Qed.



(** [X24] When [UpsertMJ3GCKey] answers with an error, either nothing has
    changed (status 400 for a body that does not parse or a key the
    store refuses, 500 when no credential could be generated), or the
    status is 500 with "failed to persist store" and the key is in the
    store nevertheless: the upsert is not undone when [Save] fails. *)
Theorem UpsertMJ3GCKey_failure
    (marshal : Data → result string) (body : option mj3gcKeyRequest)
    (rand : result string) (io : SaveIO) (now : Time) (rnd : string)
    (s s' : Store) (fs fs' : FS) (status : Z) (msg : string) :
  UpsertMJ3GCKey marshal body rand io now rnd s fs =
    (RespError status msg, s', fs') →
  (s' = s ∧ fs' = fs ∧
   (status = StatusBadRequest ∨
    status = StatusInternalServerError ∧
    msg = "failed to generate api key" ∧ ∃ e, rand = Err e)) ∨
  (status = StatusInternalServerError ∧ msg = "failed to persist store" ∧
   ∃ key key' e,
     UpsertAPIKey key now rnd s = (Ok key', s') ∧
     key' ∈ APIKeys (data s') ∧
     Save marshal io now fs s' = (Some e, fs')).
Proof.
  unfold UpsertMJ3GCKey. destruct body as [body|].
  - set (key := keyFromRequest body s).
    destruct (bool_decide (APIKey.Key key = "")).
    + unfold NewAPIKey. destruct rand as [text|e].
      * destruct (UpsertAPIKey _ now rnd s) as [[updated|e] s1] eqn:Eu.
        -- destruct (Save marshal io now fs s1) as [[e|] fs1] eqn:Es; [|done].
           intros [= <- <- <- <-]. right. split_and!; try done.
           eexists _, updated, e. split_and!; [done| |done].
           by eapply UpsertAPIKey_Ok_elem.
        -- intros [= <- <- <- <-]. left.
           apply UpsertAPIKey_Err in Eu as ->. split_and!; try done. by left.
      * intros [= <- <- <- <-]. left. split_and!; try done.
        right. split_and!; try done. by exists e.
    + destruct (UpsertAPIKey _ now rnd s) as [[updated|e] s1] eqn:Eu.
      * destruct (Save marshal io now fs s1) as [[e|] fs1] eqn:Es; [|done].
        intros [= <- <- <- <-]. right. split_and!; try done.
        eexists _, updated, e. split_and!; [done| |done].
        by eapply UpsertAPIKey_Ok_elem.
      * intros [= <- <- <- <-]. left.
        apply UpsertAPIKey_Err in Eu as ->. split_and!; try done. by left.
  - intros [= <- <- <- <-]. left. split_and!; try done. by left.
Qed.

Lemma UpsertMJ3GCKey_failure_witness :
  (created_store = scenario_store ∧ (∅ : FS) = ∅ ∧
   (StatusInternalServerError = StatusBadRequest ∨
    StatusInternalServerError = StatusInternalServerError ∧
    "failed to persist store" = "failed to generate api key" ∧
    ∃ e, (Err (ErrIO "no entropy") : result string) = Err e)) ∨
  (StatusInternalServerError = StatusInternalServerError ∧
   "failed to persist store" = "failed to persist store" ∧
   ∃ key key' e,
     UpsertAPIKey key 7 "r4nd0m" scenario_store = (Ok key', created_store) ∧
     key' ∈ APIKeys (data created_store) ∧
     Save (doc_MarshalIndent created_docs) (failing "/data/mj3gc-42.json")
          7 ∅ created_store = (Some e, ∅)).
Proof.
  apply (UpsertMJ3GCKey_failure (doc_MarshalIndent created_docs)
           (Some new_key_body) (Err (ErrIO "no entropy"))
           (failing "/data/mj3gc-42.json") 7 "r4nd0m"
           scenario_store created_store ∅ ∅
           StatusInternalServerError "failed to persist store").
  by vm_compute.
Defined.

(** ** Passwords *)






(** ** A failing [Load] *)

(** [X26] A [Load] that returns an error leaves the store as it was, Record
    Set included: a file that cannot be read or decoded does not wipe
    what is in memory. The error is [ErrInvalidConfiguration] for a store
    without path, the error of the read unless that is a missing file, or
    the error of the decoder. *)
Theorem Load_failure_keeps_store
    (unmarshal : string → result Data) (fault : option error) (now : Time)
    (fs : FS) (s s' : Store) (e : error) :
  Load unmarshal fault now fs s = (Some e, s') →
  s' = s ∧
  (Path s = "" ∧ e = ErrInvalidConfiguration ∨
   Path s ≠ "" ∧ os_ReadFile fs fault (Path s) = Err e ∧
     os_IsNotExist e = false ∨
   Path s ≠ "" ∧ ∃ raw, os_ReadFile fs fault (Path s) = Ok raw ∧
                        unmarshal raw = Err e).
Proof.
  unfold Load. case_bool_decide as Hp.
  - intros [= <- <-]. split; [done|]. by left.
  - destruct (os_ReadFile fs fault (Path s)) as [raw|err] eqn:Hread.
    + destruct (unmarshal raw) as [d|err] eqn:Hd; [done|].
      intros [= <- <-]. split; [done|]. right. right.
      split; [done|]. by exists raw.
    + destruct (os_IsNotExist err) eqn:Hne; [done|].
      intros [= <- <-]. split; [done|]. right. left. done.
Qed.

Lemma Load_failure_keeps_store_witness :
  scenario_store = scenario_store ∧
  (Path scenario_store = "" ∧
     ErrDecode "invalid character" = ErrInvalidConfiguration ∨
   Path scenario_store ≠ "" ∧
     os_ReadFile garbled_fs None (Path scenario_store) =
       Err (ErrDecode "invalid character") ∧
     os_IsNotExist (ErrDecode "invalid character") = false ∨
   Path scenario_store ≠ "" ∧
     ∃ raw, os_ReadFile garbled_fs None (Path scenario_store) = Ok raw ∧
            doc_Unmarshal scenario_docs raw =
              Err (ErrDecode "invalid character")).
Proof.
  apply (Load_failure_keeps_store (doc_Unmarshal scenario_docs) None 9
           garbled_fs scenario_store scenario_store
           (ErrDecode "invalid character")).
  reflexivity.
Defined.

(** ** Keys of a deleted user *)




(** ** A key made through the handler *)

(** The upsert behind a key the handler answers with. *)
Lemma UpsertMJ3GCKey_Ok marshal body rand io now rnd s fs status key' s' fs' :
  UpsertMJ3GCKey marshal (Some body) rand io now rnd s fs =
    (RespAPIKey status key', s', fs') →
  ∃ key1,
    UpsertAPIKey key1 now rnd s = (Ok key', s') ∧
    APIKey.ID key1 = APIKey.ID (keyFromRequest body s) ∧
    APIKey.Enabled key1 = APIKey.Enabled (keyFromRequest body s) ∧
    APIKey.UsedCount key1 = APIKey.UsedCount (keyFromRequest body s).
Proof.
  unfold UpsertMJ3GCKey.
  destruct (bool_decide (APIKey.Key (keyFromRequest body s) = "")).
  - unfold NewAPIKey. destruct rand as [text|e]; [|done].
    destruct (UpsertAPIKey _ now rnd s) as [[updated|e] s1] eqn:Eu; [|done].
    destruct (Save marshal io now fs s1) as [[e|] fs1]; [done|].
    intros [= <- <- <- <-]. eexists. split; [exact Eu|done].
  - destruct (UpsertAPIKey _ now rnd s) as [[updated|e] s1] eqn:Eu; [|done].
    destruct (Save marshal io now fs s1) as [[e|] fs1]; [done|].
    intros [= <- <- <- <-]. eexists. split; [exact Eu|done].
Qed.

(** [X28] A key made through [UpsertMJ3GCKey] from a body without identifier
    that does not disable it works at once: in a well-formed table, with
    an identifier drawn that is not in use and has no request in flight,
    [BeginRequest] admits the credential of the answer, and the access
    provider accepts a request that carries it in a strict source. *)
Theorem created_key_is_admitted
    (marshal : Data → result string) (body : mj3gcKeyRequest)
    (rand : result string) (io : SaveIO) (now : Time) (rnd : string)
    (s s' : Store) (fs fs' : FS) (status : Z) (key' : APIKey.t) :
  keys_wf (APIKeys (data s)) →
  newID "key" rnd ∉ (APIKey.ID <$> APIKeys (data s)) →
  inflight_get (inflight s) (newID "key" rnd) ≤ 0 →
  TrimSpace (req_ID body) = "" →
  req_Enabled body ≠ Some false →
  UpsertMJ3GCKey marshal (Some body) rand io now rnd s fs =
    (RespAPIKey status key', s', fs') →
  TrimSpace (APIKey.Key key') = APIKey.Key key' →
  (BeginRequest (APIKey.Key key') s').1 = Ok key' ∧
  ∀ name r source,
    extractAPIKey r = (APIKey.Key key', source) →
    isStrictSource source = true →
    ∃ res, Authenticate name s' r = inl res ∧
           Principal res = APIKey.Key key'.
Proof.
  intros Hwf Hfresh Hidle Hid Hen E Htrim.
  destruct (UpsertMJ3GCKey_Ok _ _ _ _ _ _ _ _ _ _ _ _ E)
    as (key1 & Eu & HI1 & HE1 & HN1).
  pose proof (keyFromRequest_fields body s)
    as (HI & _ & _ & _ & HE & _ & _ & _ & HN & _).
  simpl in HI, HE, HN.
  rewrite (bool_decide_eq_true_2 (TrimSpace (req_ID body) = "")) in HE
    by done.
  rewrite (bool_decide_eq_false_2 (TrimSpace (req_ID body) ≠ "")) in HN
    by auto.
  assert (APIKey.ID key1 = "") as Hid1 by congruence.
  assert (APIKey.Enabled key1 = true) as Hen1.
  { rewrite HE1, HE. destruct (req_Enabled body) as [[|]|]; done. }
  assert (APIKey.UsedCount key1 = 0) as Hn1.
  { rewrite HN1, HN. by destruct (req_ResetUsage body). }
  pose proof (UpsertAPIKey_keys_wf key1 now rnd s Hwf) as Hwf'.
  rewrite Eu in Hwf'. simpl in Hwf'.
  destruct Hwf' as (_ & HnK & _); [by intros _|].
  pose proof (UpsertAPIKey_Ok_elem _ _ _ _ _ _ Eu) as Hin.
  pose proof (UpsertAPIKey_Ok_record _ _ _ _ _ _ Eu) as Hrec.
  pose proof (UpsertAPIKey_Ok _ _ _ _ _ _ Eu)
    as (Hblank & HK & _ & _ & _ & Hfl & _).
  rewrite (bool_decide_eq_true_2 (APIKey.ID key1 = "")) in Hrec by done.
  assert (APIKey.ID key' = newID "key" rnd ∧ APIKey.Enabled key' = true ∧
          APIKey.UsedCount key' = 0) as (HI' & HE' & HN').
  { rewrite Hrec. destruct (IsZero _); simpl; by repeat split. }
  assert (APIKey.Key key' ≠ "") as Hne.
  { rewrite <- Htrim, HK. done. }
  assert (FindAPIKey (APIKey.Key key') s' = Some key') as Hfind.
  { apply FindAPIKey_intro; [done..|by rewrite Htrim|by rewrite Htrim]. }
  split.
  - rewrite (BeginRequest_resolved _ _ _ Hfind). simpl.
    rewrite bool_decide_eq_false_2 by auto. rewrite HE', HN'. simpl.
    rewrite Hfl, HI'.
    destruct (decide (APIKey.TotalLimit key' > 0)) as [Hl|Hl].
    + rewrite (bool_decide_eq_true_2 (APIKey.TotalLimit key' > 0)) by done.
      rewrite (bool_decide_eq_false_2 (0 >= APIKey.TotalLimit key'))
        by lia.
      simpl. destruct (decide (APIKey.ConcurrencyLimit key' > 0)) as [Hc|Hc].
      * rewrite (bool_decide_eq_true_2 (APIKey.ConcurrencyLimit key' > 0))
          by done.
        rewrite bool_decide_eq_false_2 by lia. done.
      * by rewrite (bool_decide_eq_false_2
                      (APIKey.ConcurrencyLimit key' > 0)).
    + rewrite (bool_decide_eq_false_2 (APIKey.TotalLimit key' > 0)) by done.
      simpl. destruct (decide (APIKey.ConcurrencyLimit key' > 0)) as [Hc|Hc].
      * rewrite (bool_decide_eq_true_2 (APIKey.ConcurrencyLimit key' > 0))
          by done.
        rewrite bool_decide_eq_false_2 by lia. done.
      * by rewrite (bool_decide_eq_false_2
                      (APIKey.ConcurrencyLimit key' > 0)).
  - intros name r source Hr Hstrict. unfold Authenticate. rewrite Hr.
    rewrite bool_decide_eq_false_2 by done. rewrite Hfind, HE'. simpl.
    unfold trustRejects. rewrite Hstrict, andb_false_r.
    eexists. split; [done|done].
Qed.

Lemma created_key_is_admitted_witness :
  (BeginRequest (APIKey.Key created_key) created_store).1 = Ok created_key ∧
  ∀ name r source,
    extractAPIKey r = (APIKey.Key created_key, source) →
    isStrictSource source = true →
    ∃ res, Authenticate name created_store r = inl res ∧
           Principal res = APIKey.Key created_key.
Proof.
  apply (created_key_is_admitted (doc_MarshalIndent created_docs)
           new_key_body (Err (ErrIO "no entropy"))
           (quiet "/data/mj3gc-42.json") 7 "r4nd0m"
           scenario_store created_store ∅ {[ data_path := "created.json" ]}
           StatusOK created_key).
  - apply scenario_keys_wf.
  - by vm_compute; intros ?%list_elem_of_singleton.
  - by vm_compute.
  - reflexivity.
  - done.
  - by vm_compute.
  - reflexivity.
Defined.
